(** * Charader: the prompt supply of a timed charades round

    A shallow embedding of [src/App.tsx]: the Fisher-Yates [shuffleArray],
    the setup fan-out [startGame], and the [GameScreen] component (prompt
    queue, background replenishment, round clock), followed by the
    properties of the prompt-supply state machine.

    Conventions.
    - JavaScript strings are [string]; a value read from an array that may
      be [undefined] is an [option string].
    - [Math.random()] is an explicit stream [random : nat -> Q] of values
      in [[0,1)], read at a draw counter that is passed along.
    - React state is a record; a handler is a function on it; the effects
      of a render are applied right after the handler that caused it. *)

From Stdlib Require Import QArith Qround Ascii String DecimalString
  DecimalNat.
From stdpp Require Import gmap strings list.

Open Scope nat_scope.

(** ** shuffleArray *)

Section Shuffle.
Context {T : Type}.

(** [[a[i], a[j]] = [a[j], a[i]]]: both reads happen before both writes.
    In [shuffleArray] both indices are inside the array (see
    [random_index_bound]); outside it the model leaves the array as it
    is and no theorem speaks about that case. *)
Definition swap (a : list T) (i j : nat) : list T :=
  match a !! j, a !! i with
  | Some x, Some y => <[j := y]> (<[i := x]> a)
  | _, _ => a
  end.

(** [Math.floor(Math.random() * (i + 1))] at draw [k] of the stream. *)
Definition random_index (random : nat -> Q) (k i : nat) : nat :=
  Z.to_nat (Qfloor (random k * inject_Z (Z.of_nat i + 1))).

(** [for (let i = shuffled.length - 1; i > 0; i--)], with the loop
    variable as the structural argument. *)
Fixpoint shuffle_loop (random : nat -> Q) (k i : nat) (shuffled : list T)
  : list T :=
  match i with
  | 0 => shuffled
  | S i' =>
      let j := random_index random k i in
      shuffle_loop random (S k) i' (swap shuffled i j)
  end.

(** [shuffleArray], reading draws [k], [k+1], ... of [random]. *)
Definition shuffleArray (random : nat -> Q) (k : nat) (array : list T)
  : list T :=
  let shuffled := array in
  shuffle_loop random k (length shuffled - 1) shuffled.

(** Number of draws [shuffleArray] takes from the stream. *)
Definition shuffle_draws (array : list T) : nat := length array - 1.

(** The same loop driven by the list of chosen indices. *)
Fixpoint shuffle_by (js : list nat) (i : nat) (a : list T) : list T :=
  match i, js with
  | S i', j :: js' => shuffle_by js' i' (swap a i j)
  | _, _ => a
  end.

(** The indices the loop chooses from [random], first to last. *)
Fixpoint choices (random : nat -> Q) (k i : nat) : list nat :=
  match i with
  | 0 => []
  | S i' => random_index random k i :: choices random (S k) i'
  end.

(** Arrays live in a store and are passed by reference. [shuffleArray]
    allocates the copy [[...array]] at a fresh reference and swaps in
    that copy only. *)
Definition store := list (list T).

Definition store_swap (h : store) (r i j : nat) : store :=
  match h !! r with
  | Some a => <[r := swap a i j]> h
  | None => h
  end.

Fixpoint store_loop (random : nat -> Q) (k i : nat) (h : store) (r : nat)
  : store :=
  match i with
  | 0 => h
  | S i' =>
      let j := random_index random k i in
      store_loop random (S k) i' (store_swap h r i j) r
  end.

Definition shuffleArray_ref (random : nat -> Q) (k : nat) (h : store)
    (array : nat) : store * nat :=
  match h !! array with
  | Some a =>
      let shuffled := length h in
      let h1 := h ++ [a] in
      (store_loop random k (length a - 1) h1 shuffled, shuffled)
  | None => (h, array)
  end.
End Shuffle.

(** A valid source for [Math.random]: every value is in [[0,1)]. *)
Definition unit_random (random : nat -> Q) : Prop :=
  forall n, (0 <= random n)%Q /\ (random n < 1)%Q.

(** The interval of draws that makes [random_index] choose [j] among
    [m = i + 1] slots. *)
Definition slot_lo (m j : nat) : Q := (inject_Z (Z.of_nat j) / inject_Z (Z.of_nat m))%Q.
Definition slot_hi (m j : nat) : Q := (inject_Z (Z.of_nat j + 1) / inject_Z (Z.of_nat m))%Q.


(** Choice lists the loop can make on an array of length [i + 1]: the
    first choice is at most [i], the next at most [i - 1], ... *)
Fixpoint valid_choices (i : nat) (js : list nat) : Prop :=
  match i, js with
  | 0, [] => True
  | S i', j :: js' => j <= i /\ valid_choices i' js'
  | _, _ => False
  end.


(** ** String operations of the JavaScript runtime

    A string is a sequence of code units below 256. *)

Open Scope string_scope.
Open Scope list_scope.
Open Scope nat_scope.

Definition newline : string := String (Ascii.ascii_of_nat 10) "".

(** [undefined] joins and concatenates as the empty string in
    [Array.prototype.join]. *)
Definition js_text (v : option string) : string :=
  match v with Some s => s | None => "" end.

(** [a.join(sep)]. *)
Fixpoint js_join (sep : string) (a : list (option string)) : string :=
  match a with
  | [] => ""
  | [v] => js_text v
  | v :: rest => js_text v +:+ sep +:+ js_join sep rest
  end.

Fixpoint drop_chars (n : nat) (s : string) : string :=
  match n, s with
  | S n', String _ s' => drop_chars n' s'
  | _, _ => s
  end.

(** First occurrence of [pat] in [s]: the text before it and the text
    after it. *)
Fixpoint split_first (pat s : string) : option (string * string) :=
  if String.prefix pat s then Some ("", drop_chars (String.length pat) s)
  else match s with
       | EmptyString => None
       | String c s' =>
           match split_first pat s' with
           | Some (pre, post) => Some (String c pre, post)
           | None => None
           end
       end.

(** GetSubstitution for a string pattern (no capture groups): [$$], [$&],
    [$`] and [$'] are expanded, any other [$] is literal. *)
Fixpoint get_substitution (repl matched pre post : string) : string :=
  match repl with
  | EmptyString => ""
  | String c rest =>
      if Ascii.eqb c "$" then
        match rest with
        | String d rest' =>
            if Ascii.eqb d "$" then String "$" (get_substitution rest' matched pre post)
            else if Ascii.eqb d "&" then matched +:+ get_substitution rest' matched pre post
            else if Ascii.eqb d "`" then pre +:+ get_substitution rest' matched pre post
            else if Ascii.eqb d "'" then post +:+ get_substitution rest' matched pre post
            else String c (get_substitution rest matched pre post)
        | EmptyString => String c ""
        end
      else String c (get_substitution rest matched pre post)
  end.

(** [s.replace(pat, repl)] with a string pattern: the first occurrence
    only. *)
Definition js_replace (s pat repl : string) : string :=
  match split_first pat s with
  | Some (pre, post) => pre +:+ get_substitution repl pat pre post +:+ post
  | None => s
  end.

(** [s.split("\n")]. *)
Fixpoint split_lines (s : string) : list string :=
  match s with
  | EmptyString => [""]
  | String c s' =>
      if Ascii.eqb c (Ascii.ascii_of_nat 10) then "" :: split_lines s'
      else match split_lines s' with
           | h :: t => String c h :: t
           | [] => [String c ""]
           end
  end.

Definition is_digit (c : ascii) : bool :=
  let n := Ascii.nat_of_ascii c in (48 <=? n) && (n <=? 57).

(** [\s] on code units below 256: tab, LF, VT, FF, CR, space, NBSP. *)
Definition is_space (c : ascii) : bool :=
  let n := Ascii.nat_of_ascii c in
  ((9 <=? n) && (n <=? 13)) || (n =? 32) || (n =? 160).

Fixpoint skip_while (p : ascii -> bool) (s : string) : string :=
  match s with
  | String c s' => if p c then skip_while p s' else s
  | EmptyString => ""
  end.

(** [line.replace(/^\d+\.\s*/, "")]: a leading item number is removed. *)
Definition strip_number (line : string) : string :=
  match line with
  | String c _ =>
      if is_digit c then
        match skip_while is_digit line with
        | String d rest =>
            if Ascii.eqb d "." then skip_while is_space rest else line
        | EmptyString => line
        end
      else line
  | EmptyString => line
  end.

(** [Boolean(s)] for a string. *)
Definition truthy (s : string) : bool :=
  match s with EmptyString => false | _ => true end.

(** [content?.split("\n").map(strip).filter(Boolean) || []]; [None] is a
    [null] or [undefined] content. *)
Definition parse_lines (content : option string) : list string :=
  match content with
  | Some s => List.filter truthy (List.map strip_number (split_lines s))
  | None => []
  end.

(** [s.includes(c)] for one code unit. *)
Fixpoint has_char (c : ascii) (s : string) : bool :=
  match s with
  | EmptyString => false
  | String d s' => Ascii.eqb d c || has_char c s'
  end.

(** A text without [$] and without an opening brace: substituting it
    into [BASE_PROMPT] neither triggers a [$] pattern nor adds a
    placeholder. *)
Definition plain (s : string) : bool :=
  negb (has_char "$" s) && negb (has_char "{" s).

(** Numbers that [Math.ceil(50 / n)] can be. *)
Inductive jsnum : Type :=
| Num (n : nat)
| Infinity.

Definition nat_to_string (n : nat) : string :=
  NilEmpty.string_of_uint (Nat.to_uint n).

Definition jsnum_toString (q : jsnum) : string :=
  match q with
  | Num n => nat_to_string n
  | Infinity => "Infinity"
  end.

(** [a.slice(0, count)]. *)
Definition js_take {T : Type} (count : jsnum) (a : list T) : list T :=
  match count with
  | Num n => take n a
  | Infinity => a
  end.

(** ** Records of the application *)

Record Category : Type := mkCategory
  { cat_id : string; cat_name : string; cat_prompt : string }.

Record GameResult : Type := mkResult
  { prompt : option string; correct : bool }.

Record GameState : Type := mkGameState
  { availablePrompts : list string;
    usedPrompts : list (option string);
    isLoadingMore : bool;
    promptCategories : gmap string string }.

(** ** The prompt generator *)

Definition BASE_PROMPT : string :=
  "Generate exactly {count} {category} for a game of charades." +:+ newline +:+
  "Format: One item per line, no numbers, no extra text." +:+ newline +:+
  "Keep items simple, and don't only include the most popular items (otherwise, it's the same every time)." +:+ newline +:+
  "Items should be easy to describe or act out." +:+ newline +:+
  "Do not include any introductory text or explanations." +:+ newline +:+
  "{exclusions}".

(** [BASE_PROMPT] with its three placeholders filled in literally. *)
Definition promptText (count category exclusions : string) : string :=
  "Generate exactly " +:+ count +:+ " " +:+ category
  +:+ " for a game of charades." +:+ newline +:+
  "Format: One item per line, no numbers, no extra text." +:+ newline +:+
  "Keep items simple, and don't only include the most popular items (otherwise, it's the same every time)." +:+ newline +:+
  "Items should be easy to describe or act out." +:+ newline +:+
  "Do not include any introductory text or explanations." +:+ newline +:+
  exclusions.

(** The argument of [openai.chat.completions.create]. *)
Record ChatRequest : Type := mkRequest
  { model : string; content : string; temperature : Q }.

(** How a call settles: it throws (network error, or a response without
    [choices[0].message]), or it yields [choices[0].message.content]. *)
Inductive Outcome : Type :=
| Throws
| Responds (content : option string).

(** ** The GameScreen component *)

Module GameScreen.

Record Props : Type := mkProps
  { duration : Q;
    initialPrompts : list string;
    category : Category;
    categoriesOfPrompts : gmap string string }.

(** The [useState] cells of [GameScreen]; [count] is the cell of the
    nested [Countdown], which is mounted while [showCountdown] holds. *)
Record State : Type := mkState
  { timeLeft : Q;
    currentPromptIndex : nat;
    results : list GameResult;
    gameState : GameState;
    showCountdown : bool;
    count : nat }.

Definition init (p : Props) : State :=
  {| timeLeft := (duration p * 60)%Q;
     currentPromptIndex := 0;
     results := [];
     gameState :=
       {| availablePrompts := initialPrompts p;
          usedPrompts := [];
          isLoadingMore := false;
          promptCategories := categoriesOfPrompts p |};
     showCountdown := true;
     count := 3 |}.

Definition setGameState (f : GameState -> GameState) (s : State) : State :=
  {| timeLeft := timeLeft s;
     currentPromptIndex := currentPromptIndex s;
     results := results s;
     gameState := f (gameState s);
     showCountdown := showCountdown s;
     count := count s |}.

Definition setResults (f : list GameResult -> list GameResult) (s : State)
  : State :=
  {| timeLeft := timeLeft s;
     currentPromptIndex := currentPromptIndex s;
     results := f (results s);
     gameState := gameState s;
     showCountdown := showCountdown s;
     count := count s |}.

Definition setCurrentPromptIndex (f : nat -> nat) (s : State) : State :=
  {| timeLeft := timeLeft s;
     currentPromptIndex := f (currentPromptIndex s);
     results := results s;
     gameState := gameState s;
     showCountdown := showCountdown s;
     count := count s |}.

Definition setTimeLeft (t : Q) (s : State) : State :=
  {| timeLeft := t;
     currentPromptIndex := currentPromptIndex s;
     results := results s;
     gameState := gameState s;
     showCountdown := showCountdown s;
     count := count s |}.

Definition setCountdown (show : bool) (c : nat) (s : State) : State :=
  {| timeLeft := timeLeft s;
     currentPromptIndex := currentPromptIndex s;
     results := results s;
     gameState := gameState s;
     showCountdown := show;
     count := c |}.

Definition setLoadingMore (b : bool) (g : GameState) : GameState :=
  {| availablePrompts := availablePrompts g;
     usedPrompts := usedPrompts g;
     isLoadingMore := b;
     promptCategories := promptCategories g |}.

Definition appendPrompts (newPrompts : list string) (g : GameState)
  : GameState :=
  {| availablePrompts := availablePrompts g ++ newPrompts;
     usedPrompts := usedPrompts g;
     isLoadingMore := false;
     promptCategories := promptCategories g |}.

Definition markUsed (currentPrompt : option string) (g : GameState)
  : GameState :=
  {| availablePrompts := availablePrompts g;
     usedPrompts := usedPrompts g ++ [currentPrompt];
     isLoadingMore := isLoadingMore g;
     promptCategories := promptCategories g |}.

(** [exclusionText] of [fetchMorePrompts]. *)
Definition exclusionText (usedPrompts : list (option string)) : string :=
  if (0 <? length usedPrompts)%nat
  then newline +:+ "Do not include any of these items:" +:+ newline
       +:+ js_join newline usedPrompts
  else "".

(** The request of [fetchMorePrompts]. *)
Definition moreRequest (category : Category)
    (usedPrompts : list (option string)) : ChatRequest :=
  {| model := "gpt-4o-mini";
     content :=
       js_replace
         (js_replace (js_replace BASE_PROMPT "{count}" "60")
            "{category}" (cat_prompt category))
         "{exclusions}" (exclusionText usedPrompts);
     temperature := 2 |}.

(** The condition of the replenishment effect. *)
Definition needsMore (s : State) : bool :=
  (Z.of_nat (length (availablePrompts (gameState s)))
     - Z.of_nat (currentPromptIndex s) <=? 10)%Z
  && negb (isLoadingMore (gameState s)).

(** The replenishment effect, run after a render: the new state and the
    requests it sends. *)
Definition fetchEffect (category : Category) (s : State)
  : State * list ChatRequest :=
  if needsMore s
  then (setGameState (setLoadingMore true) s,
        [moreRequest category (usedPrompts (gameState s))])
  else (s, []).

(** The continuation of [fetchMorePrompts] after its [await]; [random]
    and [k] are the random source at that moment. *)
Definition fetchSettled (o : Outcome) (random : nat -> Q) (k : nat)
    (s : State) : State :=
  match o with
  | Responds content =>
      let newPrompts := shuffleArray random k (parse_lines content) in
      setGameState (appendPrompts newPrompts) s
  | Throws => setGameState (setLoadingMore false) s
  end.

(** The guard of [handleResult]: "out of prompts and still loading". *)
Definition outOfPrompts (s : State) : bool :=
  (Z.of_nat (currentPromptIndex s)
     >=? Z.of_nat (length (availablePrompts (gameState s))) - 1)%Z
  && isLoadingMore (gameState s).

Definition handleResult (correct : bool) (s : State) : State :=
  let currentPrompt :=
    availablePrompts (gameState s) !! currentPromptIndex s in
  let s1 :=
    setGameState (markUsed currentPrompt)
      (setResults (fun prev => prev ++ [mkResult currentPrompt correct]) s) in
  if outOfPrompts s
  then s1
  else setCurrentPromptIndex (fun prev => prev + 1)%nat s1.

(** One firing of the round interval: the new state and the argument of
    [onGameEnd] when the round ends. *)
Definition tick (s : State) : State * option (list GameResult) :=
  if Qle_bool (timeLeft s) 1
  then (setTimeLeft 0 s, Some (results s))
  else (setTimeLeft (timeLeft s - 1)%Q s, None).

(** One firing of the [Countdown] timeout; when [count] reaches 0 its
    effect calls [onComplete]. *)
Definition countdownTick (s : State) : State :=
  match count s with
  | 0 => s
  | 1 => setCountdown false 0 s
  | S c => setCountdown true c s
  end.

End GameScreen.

(** ** The App component *)

Module App.

Inductive Phase : Type := setup | playing | finished.

Record GameConfig : Type := mkConfig
  { duration : Q; categories : list Category }.

Record State : Type := mkState
  { gameState : Phase;
    gameConfig : option GameConfig;
    prompts : list string;
    results : list GameResult;
    isLoading : bool;
    promptCategories : gmap string string }.

Definition init : State :=
  {| gameState := setup;
     gameConfig := None;
     prompts := [];
     results := [];
     isLoading := false;
     promptCategories := ∅ |}.

(** What [startGame] reads from outside: [navigator.onLine] and the
    generator at each visit of a custom category, and [Math.random]. *)
Record Env : Type := mkEnv
  { isOnline : nat -> bool;
    respond : nat -> Outcome;
    random : nat -> Q }.

(** [Math.ceil(50 / categories.length)]; [50 / 0] is [Infinity]. *)
Definition promptsPerCategory (n : nat) : jsnum :=
  match n with
  | 0 => Infinity
  | _ => Num (Z.to_nat (Qceiling (50 / inject_Z (Z.of_nat n))))
  end.

Definition setupRequest (count : jsnum) (category : Category)
  : ChatRequest :=
  {| model := "gpt-4o-mini";
     content :=
       js_replace
         (js_replace
            (js_replace BASE_PROMPT "{count}" (jsnum_toString count))
            "{category}" (cat_prompt category))
         "{exclusions}" "";
     temperature := 3 # 2 |}.

(** The loop variables of [startGame], with the number of custom
    categories visited and of random draws taken so far. *)
Record Acc : Type := mkAcc
  { allPrompts : list string;
    _promptCategories : gmap string string;
    visits : nat;
    draws : nat }.

Section Catalog.
(** [./categories] is not part of the sources at hand: the table
    [ALL_CATEGORIES] and the canned pool of each category identifier
    are taken as given. *)
Variable ALL_CATEGORIES : list Category.
Variable options : string -> list string.

(** Modelled from the spec: [getRandomOptionsForCategory] of
    [./categories] is missing; the Option Sampler "draws [count] items
    via a uniform random shuffle of the category's full canned pool,
    truncated to [count] (if the pool is smaller than [count], the
    whole shuffled pool)". *)
Definition getRandomOptionsForCategory (random : nat -> Q) (k : nat)
    (id : string) (count : jsnum) : list string :=
  js_take count (shuffleArray random k (options id)).

(** The categories the loop of [startGame] runs over. *)
Definition sampledCategories (categories : list Category)
  : list Category :=
  match categories with
  | [c] =>
      if String.eqb (cat_id c) "misc"
      then List.filter
             (fun c => negb (String.eqb (cat_id c) "custom")
                       && negb (String.eqb (cat_id c) "misc"))
             ALL_CATEGORIES
      else categories
  | _ => categories
  end.

(** [category.id === "custom"]. *)
Definition isCustom (category : Category) : bool :=
  String.eqb (cat_id category) "custom".

(** [categoryPrompts] of one loop iteration; [None] when the generator
    call throws. *)
Definition categoryPrompts (env : Env) (quota : jsnum) (acc : Acc)
    (category : Category) : option (list string) :=
  if isCustom category then
    if negb (isOnline env (visits acc))
    then Some ["Custom categories require internet connection"]
    else match respond env (visits acc) with
         | Throws => None
         | Responds content => Some (parse_lines content)
         end
  else Some (getRandomOptionsForCategory (random env) (draws acc)
               (cat_id category) quota).

(** One iteration of [for (const category of categories)]. *)
Definition visit (env : Env) (quota : jsnum) (acc : Acc)
    (category : Category) : option Acc :=
  match categoryPrompts env quota acc category with
  | None => None
  | Some ps =>
      Some {| allPrompts := allPrompts acc ++ ps;
              _promptCategories :=
                foldl (fun m p => <[p := cat_name category]> m)
                  (_promptCategories acc) ps;
              visits :=
                if isCustom category
                then S (visits acc) else visits acc;
              draws :=
                if isCustom category
                then draws acc
                else draws acc + shuffle_draws (options (cat_id category)) |}
  end.

Fixpoint collect (env : Env) (quota : jsnum) (acc : Acc)
    (categories : list Category) : option Acc :=
  match categories with
  | [] => Some acc
  | category :: rest =>
      match visit env quota acc category with
      | None => None
      | Some acc' => collect env quota acc' rest
      end
  end.

(** The [try] block of [startGame]: [None] when an exception reaches
    the [catch]. *)
Definition startGame_try (env : Env) (duration : Q)
    (categories : list Category)
  : option (list string * gmap string string * GameConfig) :=
  let promptsPerCategory := promptsPerCategory (length categories) in
  let categories := sampledCategories categories in
  match collect env promptsPerCategory (mkAcc [] ∅ 0 0) categories with
  | None => None
  | Some acc =>
      let shuffledPrompts :=
        shuffleArray (random env) (draws acc) (allPrompts acc) in
      Some (shuffledPrompts, _promptCategories acc,
            mkConfig duration categories)
  end.

(** [startGame] from the click to the end of its [finally]. *)
Definition startGame (env : Env) (duration : Q)
    (categories : list Category) (a : State) : State :=
  match startGame_try env duration categories with
  | Some (shuffledPrompts, cats, config) =>
      {| gameState := playing;
         gameConfig := Some config;
         prompts := shuffledPrompts;
         results := results a;
         isLoading := false;
         promptCategories := cats |}
  | None =>
      {| gameState := gameState a;
         gameConfig := gameConfig a;
         prompts := prompts a;
         results := results a;
         isLoading := false;
         promptCategories := promptCategories a |}
  end.
End Catalog.

Definition endGame (results : list GameResult) (a : State) : State :=
  {| gameState := finished;
     gameConfig := gameConfig a;
     prompts := prompts a;
     results := results;
     isLoading := isLoading a;
     promptCategories := promptCategories a |}.

Definition resetGame (a : State) : State :=
  {| gameState := setup;
     gameConfig := None;
     prompts := [];
     results := [];
     isLoading := isLoading a;
     promptCategories := promptCategories a |}.

End App.

(** ** The page: [App], the mounted [GameScreen], and the requests in flight *)

(** A replenishment request in flight, with the [GameScreen] instance
    whose [setGameState] its continuation holds. *)
Record Fetch : Type := mkFetch
  { owner : nat; request : ChatRequest }.

Record World : Type := mkWorld
  { app : App.State;
    screen : option GameScreen.State;
    instance : nat;
    pending : list Fetch;
    emitted : list (list GameResult);
    crashed : bool }.

Definition initialWorld : World :=
  {| app := App.init;
     screen := None;
     instance := 0;
     pending := [];
     emitted := [];
     crashed := false |}.

Inductive Event : Type :=
| StartGame (env : App.Env) (duration : Q) (categories : list Category)
| CountdownTick
| Tick
| Judge (correct : bool)
| Settle (n : nat) (o : Outcome) (random : nat -> Q)
| PlayAgain.

(** [category={gameConfig.categories[0]}]. *)
Definition activeCategory (a : App.State) : option Category :=
  match App.gameConfig a with
  | Some config => head (App.categories config)
  | None => None
  end.

Definition propsOf (a : App.State) (config : App.GameConfig)
    (category : Category) : GameScreen.Props :=
  {| GameScreen.duration := App.duration config;
     GameScreen.initialPrompts := App.prompts a;
     GameScreen.category := category;
     GameScreen.categoriesOfPrompts := App.promptCategories a |}.

(** The render of [App] after [startGame]: a new [GameScreen] instance is
    mounted when the phase is [playing]; its first render reads
    [category.prompt], which throws when [categories] is empty. *)
Definition mount (a : App.State) (w : World) : World :=
  match App.gameState a, App.gameConfig a with
  | App.playing, Some config =>
      match head (App.categories config) with
      | Some category =>
          let i := S (instance w) in
          let '(s, reqs) :=
            GameScreen.fetchEffect category
              (GameScreen.init (propsOf a config category)) in
          {| app := a;
             screen := Some s;
             instance := i;
             pending := pending w ++ map (mkFetch i) reqs;
             emitted := emitted w;
             crashed := false |}
      | None =>
          {| app := a;
             screen := None;
             instance := instance w;
             pending := pending w;
             emitted := emitted w;
             crashed := true |}
      end
  | _, _ =>
      {| app := a;
         screen := screen w;
         instance := instance w;
         pending := pending w;
         emitted := emitted w;
         crashed := crashed w |}
  end.

(** A render of the mounted [GameScreen] followed by its replenishment
    effect. *)
Definition rerender (s : GameScreen.State) (w : World) : World :=
  match activeCategory (app w) with
  | Some category =>
      let '(s', reqs) := GameScreen.fetchEffect category s in
      {| app := app w;
         screen := Some s';
         instance := instance w;
         pending := pending w ++ map (mkFetch (instance w)) reqs;
         emitted := emitted w;
         crashed := crashed w |}
  | None => w
  end.

Definition dropPending (n : nat) (w : World) : World :=
  {| app := app w;
     screen := screen w;
     instance := instance w;
     pending := delete n (pending w);
     emitted := emitted w;
     crashed := crashed w |}.

(** [onGameEnd(results)]: [App] moves to its end phase and [GameScreen]
    is unmounted. *)
Definition gameEnds (results : list GameResult) (w : World) : World :=
  {| app := App.endGame results (app w);
     screen := None;
     instance := instance w;
     pending := pending w;
     emitted := emitted w ++ [results];
     crashed := crashed w |}.

Section Page.
Variable ALL_CATEGORIES : list Category.
Variable options : string -> list string.

Definition step (e : Event) (w : World) : World :=
  if crashed w then w else
  match e with
  | StartGame env duration categories =>
      match App.gameState (app w), App.isLoading (app w) with
      | App.setup, false =>
          mount (App.startGame ALL_CATEGORIES options env duration
                   categories (app w)) w
      | _, _ => w
      end
  | CountdownTick =>
      match screen w with
      | Some s =>
          if GameScreen.showCountdown s
          then rerender (GameScreen.countdownTick s) w
          else w
      | None => w
      end
  | Tick =>
      match screen w with
      | Some s =>
          if GameScreen.showCountdown s then w
          else match GameScreen.tick s with
               | (_, Some results) => gameEnds results w
               | (s', None) => rerender s' w
               end
      | None => w
      end
  | Judge correct =>
      match screen w with
      | Some s =>
          if GameScreen.showCountdown s then w
          else rerender (GameScreen.handleResult correct s) w
      | None => w
      end
  | Settle n o random =>
      match pending w !! n with
      | Some f =>
          let w' := dropPending n w in
          match screen w with
          | Some s =>
              if owner f =? instance w
              then rerender (GameScreen.fetchSettled o random 0 s) w'
              else w'
          | None => w'
          end
      | None => w
      end
  | PlayAgain =>
      match App.gameState (app w) with
      | App.finished =>
          {| app := App.resetGame (app w);
             screen := screen w;
             instance := instance w;
             pending := pending w;
             emitted := emitted w;
             crashed := crashed w |}
      | _ => w
      end
  end.

Definition run (events : list Event) (w : World) : World :=
  foldl (fun w e => step e w) w events.

Inductive reachable : World -> Prop :=
| reachable_init : reachable initialWorld
| reachable_step e w : reachable w -> reachable (step e w).



End Page.

(** ** Invariants of the page *)

(** Requests in flight that belong to instance [i]. *)
Definition owned (i : nat) (l : list Fetch) : nat :=
  length (filter (fun f => owner f = i) l).

(** What holds of the [GameScreen] state [s] of instance [i] under the
    [App] state [a] and the requests in flight [pend], before the
    replenishment effect of the render has run. *)
Record screenPre (a : App.State) (i : nat) (pend : list Fetch)
    (s : GameScreen.State) : Prop := mkScreenPre
  { inv_playing : App.gameState a = App.playing;
    inv_category : exists config category,
        App.gameConfig a = Some config
        /\ head (App.categories config) = Some category
        /\ (GameScreen.showCountdown s = true ->
            GameScreen.timeLeft s = (App.duration config * 60)%Q);
    inv_cursor :
      GameScreen.currentPromptIndex s
      <= length (availablePrompts (GameScreen.gameState s)) - 1;
    inv_used :
      prompt <$> GameScreen.results s = usedPrompts (GameScreen.gameState s);
    inv_consumed :
      sublist
        (Some <$> take (GameScreen.currentPromptIndex s)
                    (availablePrompts (GameScreen.gameState s)))
        (usedPrompts (GameScreen.gameState s));
    inv_shown :
      Forall
        (fun u => u = None
                  \/ exists n, n <= GameScreen.currentPromptIndex s
                       /\ availablePrompts (GameScreen.gameState s) !! n = u)
        (usedPrompts (GameScreen.gameState s));
    inv_inflight :
      owned i pend = if isLoadingMore (GameScreen.gameState s) then 1 else 0;
    inv_queue :
      App.prompts a `prefix_of` availablePrompts (GameScreen.gameState s) }.

(** Between two events the effect has run as well: a queue at or below
    the low-water mark has its replenishment in flight. *)
Definition screenInv (w : World) (s : GameScreen.State) : Prop :=
  screenPre (app w) (instance w) (pending w) s
  /\ GameScreen.needsMore s = false.

Record worldInv (w : World) : Prop := mkWorldInv
  { inv_owner : forall f, f ∈ pending w -> owner f <= instance w;
    inv_screen : forall s, screen w = Some s -> screenInv w s;
    inv_crashed : crashed w = true -> screen w = None }.

(** ** A small catalog for the examples *)

Definition exampleCategories : list Category :=
  [ mkCategory "misc" "All Categories" "things";
    mkCategory "animals" "Animals" "animals";
    mkCategory "movies" "Movies" "movies";
    mkCategory "custom" "Custom" "custom" ].

Definition exampleOptions (id : string) : list string :=
  if String.eqb id "animals" then ["Cat"; "Dog"; "Bird"; "Fish"; "Lion"]
  else if String.eqb id "movies" then ["Jaws"; "Alien"]
  else [].

Definition animals : Category := mkCategory "animals" "Animals" "animals".
Definition movies : Category := mkCategory "movies" "Movies" "movies".
Definition allCategories : Category :=
  mkCategory "misc" "All Categories" "things".
Definition disney : Category :=
  mkCategory "custom" "Disney Characters" "Disney Characters".

(** Online; the generator answers every call with [reply]. *)
Definition answering (reply : Outcome) : App.Env :=
  {| App.isOnline := fun _ => true;
     App.respond := fun _ => reply;
     App.random := fun _ => 1 # 2 |}.

Definition exampleStep : Event -> World -> World :=
  step exampleCategories exampleOptions.

Definition exampleRun : list Event -> World -> World :=
  run exampleCategories exampleOptions.

(** A catalog in which every canned category has a pool of 30 options. *)
Definition thirtyOptions (id : string) : list string :=
  (fun n => id +:+ " " +:+ nat_to_string n) <$> seq 0 30.

(** An answer of the generator with 25 items, one per line. *)
Definition twentyFiveItems : string :=
  js_join newline (Some <$> take 25 (thirtyOptions "item")).

(** * Further definitions *)

(** ** The GameSetup component *)

Module GameSetup.

(** The updater that [handleCategoryClick] hands to
    [setSelectedCategories]; the [Set] is only asked [has] and [size]. *)
Definition handleCategoryClick (categoryId : string) (isCheckbox : bool)
    (prev : gset string) : gset string :=
  let newSelection : gset string :=
    if String.eqb categoryId "misc" then {["misc"]}
    else if isCheckbox then
      let unmisc : gset string :=
        if bool_decide ("misc" ∈ prev) then prev ∖ {["misc"]} else prev in
      if bool_decide (categoryId ∈ unmisc)
      then unmisc ∖ {[categoryId]}
      else unmisc ∪ {[categoryId]}
    else {[categoryId]} in
  if bool_decide (size newSelection = 0)
  then newSelection ∪ {[categoryId]}
  else newSelection.

Fixpoint trimEnd (s : string) : string :=
  match s with
  | EmptyString => ""
  | String c s' =>
      match trimEnd s' with
      | EmptyString => if is_space c then "" else String c ""
      | t => String c t
      end
  end.

(** [s.trim()] on code units below 256. *)
Definition trim (s : string) : string := trimEnd (skip_while is_space s).

(** The category list that [handleStartGame] hands to [onStartGame]. *)
Definition handleStartGame (ALL_CATEGORIES : list Category)
    (selectedCategories : gset string) (customCategory : string)
  : list Category :=
  let selectedCategoryObjects :=
    List.filter (fun cat => bool_decide (cat_id cat ∈ selectedCategories))
      ALL_CATEGORIES in
  if bool_decide ("custom" ∈ selectedCategories)
     && truthy (trim customCategory)
  then selectedCategoryObjects
       ++ [mkCategory "custom" (trim customCategory) (trim customCategory)]
  else selectedCategoryObjects.

(** The [disabled] attribute of the start button. *)
Definition startDisabled (isLoading : bool)
    (selectedCategories : gset string) (customCategory : string) : bool :=
  isLoading
  || (bool_decide ("custom" ∈ selectedCategories)
      && negb (truthy (trim customCategory))).


End GameSetup.

(** ** The GameEnd component *)

Module GameEnd.


End GameEnd.


(** The prompt that stands in for a custom category while offline. *)
Definition offlineNotice : string :=
  "Custom categories require internet connection".


(** What one render of a mounted [GameScreen] may change with respect to
    an earlier one: the queue, the used list and the results grow at
    their end, the cursor moves forward by at most one per result, the
    clock and the countdown go down, the labels of the prompts stay. *)
Definition advances (s s' : GameScreen.State) : Prop :=
  availablePrompts (GameScreen.gameState s)
    `prefix_of` availablePrompts (GameScreen.gameState s')
  /\ usedPrompts (GameScreen.gameState s)
       `prefix_of` usedPrompts (GameScreen.gameState s')
  /\ GameScreen.results s `prefix_of` GameScreen.results s'
  /\ GameScreen.currentPromptIndex s <= GameScreen.currentPromptIndex s'
  /\ GameScreen.currentPromptIndex s' - GameScreen.currentPromptIndex s
     <= length (GameScreen.results s') - length (GameScreen.results s)
  /\ (GameScreen.timeLeft s' <= GameScreen.timeLeft s)%Q
  /\ promptCategories (GameScreen.gameState s')
     = promptCategories (GameScreen.gameState s)
  /\ GameScreen.count s' <= GameScreen.count s.

(** ** getRandomPastelTheme *)

Record Theme : Type := mkTheme
  { primary : string;
    secondary : string;
    accent : string;
    border : string;
    hover : string;
    focus : string;
    checkbox : string }.

Definition themes : list Theme :=
  [ mkTheme "bg-rose-100 text-rose-800" "bg-rose-600 text-white"
      "bg-rose-50" "border-rose-200" "hover:bg-rose-700"
      "focus:ring-rose-500 focus:border-rose-500" "text-rose-600";
    mkTheme "bg-sky-100 text-sky-800" "bg-sky-600 text-white"
      "bg-sky-50" "border-sky-200" "hover:bg-sky-700"
      "focus:ring-sky-500 focus:border-sky-500" "text-sky-600";
    mkTheme "bg-violet-100 text-violet-800" "bg-violet-600 text-white"
      "bg-violet-50" "border-violet-200" "hover:bg-violet-700"
      "focus:ring-violet-500 focus:border-violet-500" "text-violet-600";
    mkTheme "bg-teal-100 text-teal-800" "bg-teal-600 text-white"
      "bg-teal-50" "border-teal-200" "hover:bg-teal-700"
      "focus:ring-teal-500 focus:border-teal-500" "text-teal-600" ].

(** [themes[Math.floor(Math.random() * themes.length)]]; an index
    outside the array reads [undefined]. *)
Definition getRandomPastelTheme (random : nat -> Q) (k : nat)
  : option Theme :=
  let i := Qfloor (random k * inject_Z (Z.of_nat (length themes))) in
  if (i <? 0)%Z then None else themes !! Z.to_nat i.

(** ** The clock of the round as it is displayed *)

(** [s.padStart(2, "0")]. *)
Definition padStart2 (s : string) : string :=
  match String.length s with
  | 0 => "00" +:+ s
  | 1 => "0" +:+ s
  | _ => s
  end.

(** [{minutes}:{seconds.toString().padStart(2, "0")}] for a clock that
    holds a whole number of seconds. *)
Definition clockText (timeLeft : nat) : string :=
  let minutes := timeLeft / 60 in
  let seconds := timeLeft mod 60 in
  nat_to_string minutes +:+ ":" +:+ padStart2 (nat_to_string seconds).

(** ** Proof steps used more than once *)


(** Closes the cases of a step that mounts nothing. *)
Ltac same :=
  simpl; split; [lia | intros ? [? ?]; simpl in *; congruence].

(** * Properties *)

(** ** The shuffle *)

Lemma random_index_bound random k i :
  unit_random random -> random_index random k i <= i.
Proof.
  intros H. destruct (H k) as [H0 H1]. unfold random_index.
  set (m := inject_Z (Z.of_nat i + 1)).
  assert (Hm : (0 < m)%Q).
  { unfold m. replace 0%Q with (inject_Z 0) by reflexivity.
    rewrite <- Zlt_Qlt. lia. }
  assert (Hlt : (random k * m < m)%Q).
  { assert (E : (m == 1 * m)%Q) by ring. rewrite E at 2.
    apply Qmult_lt_compat_r; assumption. }
  assert (Hge : (0 <= random k * m)%Q).
  { apply Qmult_le_0_compat; [assumption | apply Qlt_le_weak; assumption]. }
  pose proof (Qfloor_le (random k * m)) as Hf.
  assert (Hz : (Qfloor (random k * m) < Z.of_nat i + 1)%Z).
  { rewrite Zlt_Qlt. eapply Qle_lt_trans; [exact Hf | exact Hlt]. }
  lia.
Qed.

Section SwapFacts.
Context {T : Type}.
Implicit Types a : list T.

Lemma swap_length a i j : length (swap a i j) = length a.
Proof.
  unfold swap. destruct (a !! j), (a !! i); try done.
  by rewrite !length_insert.
Qed.

Lemma insert_perm_head a j (x h : T) :
  a !! j = Some x -> x :: <[j := h]> a ≡ₚ h :: a.
Proof.
  revert j. induction a as [|y a IH]; intros [|j] Hj; simplify_eq/=.
  - apply Permutation_swap.
  - trans (y :: x :: <[j:=h]> a); [apply perm_swap|].
    rewrite (IH _ Hj). apply perm_swap.
Qed.

Lemma swap_perm a i j : swap a i j ≡ₚ a.
Proof.
  unfold swap.
  destruct (a !! j) as [x|] eqn:Hj, (a !! i) as [y|] eqn:Hi; try done.
  revert i j Hi Hj. induction a as [|h a IH]; intros [|i] [|j] Hi Hj;
    simplify_eq/=.
  - done.
  - by apply insert_perm_head.
  - by apply insert_perm_head.
  - f_equiv. by apply IH.
Qed.




End SwapFacts.

Section ShuffleFacts.
Context {T : Type}.
Implicit Types a p : list T.

Lemma shuffle_loop_by random k i a :
  shuffle_loop random k i a = shuffle_by (choices random k i) i a.
Proof. revert k a. induction i as [|i IH]; intros k a; simpl; [done|apply IH]. Qed.

Lemma choices_valid random k i :
  unit_random random -> valid_choices i (choices random k i).
Proof.
  intros H. revert k. induction i as [|i IH]; intros k; simpl; [done|].
  split; [by apply random_index_bound | apply IH].
Qed.

Lemma shuffle_by_length js i a : length (shuffle_by js i a) = length a.
Proof.
  revert js a. induction i as [|i IH]; intros [|j js] a; simpl; try done.
  by rewrite IH, swap_length.
Qed.

Lemma shuffle_by_perm js i a : shuffle_by js i a ≡ₚ a.
Proof.
  revert js a. induction i as [|i IH]; intros [|j js] a; simpl; try done.
  by rewrite IH, swap_perm.
Qed.



End ShuffleFacts.

Section ShuffleReach.
Context {T : Type}.
Implicit Types a p : list T.


End ShuffleReach.

(** [random_index] chooses [j] exactly on the slot of [j]. *)
Lemma random_index_slot random k i j :
  unit_random random ->
  random_index random k i = j <->
  (slot_lo (S i) j <= random k)%Q /\ (random k < slot_hi (S i) j)%Q.
Proof.
  intros H. destruct (H k) as [H0 H1]. unfold random_index, slot_lo, slot_hi.
  assert (Em : inject_Z (Z.of_nat (S i)) = inject_Z (Z.of_nat i + 1)).
  { f_equal. lia. }
  rewrite Em. set (m := inject_Z (Z.of_nat i + 1)).
  assert (Hm : (0 < m)%Q).
  { unfold m. replace 0%Q with (inject_Z 0) by reflexivity.
    rewrite <- Zlt_Qlt. lia. }
  assert (Hge : (0 <= random k * m)%Q).
  { apply Qmult_le_0_compat; [assumption | apply Qlt_le_weak; assumption]. }
  assert (Hf0 : (0 <= Qfloor (random k * m))%Z).
  { replace 0%Z with (Qfloor (inject_Z 0)) by apply Qfloor_Z.
    apply Qfloor_resp_le. exact Hge. }
  pose proof (Qfloor_le (random k * m)) as Hfl.
  pose proof (Qlt_floor (random k * m)) as Hfu.
  split.
  - intros <-. rewrite Z2Nat.id by done. split.
    + apply Qle_shift_div_r; assumption.
    + apply Qlt_shift_div_l; assumption.
  - intros [Hlo Hhi].
    assert (Hm0 : ~ (m == 0)%Q).
    { intros Hz. rewrite Hz in Hm. by apply Qlt_irrefl in Hm. }
    apply (Qmult_le_compat_r _ _ m) in Hlo; [|by apply Qlt_le_weak].
    apply (Qmult_lt_compat_r _ _ m) in Hhi; [|assumption].
    assert (E1 : (inject_Z (Z.of_nat j) / m * m == inject_Z (Z.of_nat j))%Q)
      by (field; exact Hm0).
    assert (E2 : (inject_Z (Z.of_nat j + 1) / m * m
                  == inject_Z (Z.of_nat j + 1))%Q) by (field; exact Hm0).
    rewrite E1 in Hlo. rewrite E2 in Hhi.
    assert (Z.of_nat j <= Qfloor (random k * m))%Z.
    { rewrite <- (Qfloor_Z (Z.of_nat j)). by apply Qfloor_resp_le. }
    assert (Qfloor (random k * m) < Z.of_nat j + 1)%Z.
    { rewrite Zlt_Qlt. eapply Qle_lt_trans; [exact Hfl | exact Hhi]. }
    lia.
Qed.





Section Store.
Context {T : Type}.

Lemma store_loop_spec random i : forall k (h : store) r (a : list T),
  h !! r = Some a ->
  store_loop random k i h r = <[r := shuffle_loop random k i a]> h.
Proof.
  induction i as [|i IH]; intros k h r a Hr; simpl.
  - symmetry. by apply list_insert_id.
  - unfold store_swap. rewrite Hr.
    rewrite (IH _ _ _ (swap a (S i) (random_index random k (S i)))).
    + apply list_insert_insert_eq.
    + apply list_lookup_insert_eq. by eapply lookup_lt_Some.
Qed.
End Store.

Lemma valid_choices_bound i js :
  valid_choices i js -> Forall (fun j => j <= i) js.
Proof.
  revert js. induction i as [|i IH]; intros [|j js]; simpl; try done.
  intros [Hj Hv]. constructor; [done|].
  eapply Forall_impl; [by apply IH | simpl; lia].
Qed.

Section Naturality.
Context {A B : Type} (f : A -> B).

Lemma swap_fmap (a : list A) i j : swap (f <$> a) i j = f <$> swap a i j.
Proof.
  unfold swap. rewrite !list_lookup_fmap.
  destruct (a !! j), (a !! i); simpl; try done.
  by rewrite !list_fmap_insert.
Qed.

(** The shuffle moves positions and never looks at the elements: for a
    list with repeated elements it is the image of the shuffle of a
    list of distinct labels. *)
Lemma shuffleArray_fmap random k (l : list A) :
  shuffleArray random k (f <$> l) = f <$> shuffleArray random k l.
Proof.
  unfold shuffleArray. rewrite length_fmap.
  generalize (length l - 1). intros i. revert k l.
  induction i as [|i IH]; intros k l; simpl; [done|].
  rewrite swap_fmap. apply IH.
Qed.
End Naturality.

Lemma snoc_lookup_last {A : Type} (l : list A) (x : A) :
  (l ++ [x]) !! length l = Some x.
Proof. by apply list_lookup_middle. Qed.

Lemma snoc_insert_last {A : Type} (l : list A) (x y : A) :
  <[length l := y]> (l ++ [x]) = l ++ [y].
Proof. rewrite insert_app_r_alt by lia. by rewrite Nat.sub_diag. Qed.

(** C10. For every array in the store and every source of draws in
    [[0,1)], [shuffleArray] returns a reference that was not in use
    before; the input array and every other array of the store are
    unchanged; the new array is a permutation of the input, of the same
    length; and every index it draws lies inside the array. *)
Theorem shuffleArray_permutation {T : Type} (random : nat -> Q) (k : nat)
    (h : @store T) (r : nat) (array : list T) :
  unit_random random ->
  h !! r = Some array ->
  let '(h', shuffled) := shuffleArray_ref random k h r in
  shuffled <> r
  /\ h !! shuffled = None
  /\ h' !! r = Some array
  /\ (forall r', r' < length h -> h' !! r' = h !! r')
  /\ h' !! shuffled = Some (shuffleArray random k array)
  /\ shuffleArray random k array ≡ₚ array
  /\ length (shuffleArray random k array) = length array
  /\ Forall (fun j => j < length array)
       (choices random k (length array - 1)).
Proof.
  intros Hrandom Hr. unfold shuffleArray_ref. rewrite Hr.
  pose proof (lookup_lt_Some _ _ _ Hr) as Hlt.
  rewrite (store_loop_spec random _ k (h ++ [array]) (length h) array)
    by apply snoc_lookup_last.
  replace (<[length h := shuffle_loop random k (length array - 1) array]>
             (h ++ [array]))
    with (h ++ [shuffle_loop random k (length array - 1) array])
    by (symmetry; apply snoc_insert_last).
  repeat split.
  - lia.
  - apply lookup_ge_None_2. lia.
  - rewrite <- Hr. by apply lookup_app_l.
  - intros r' Hr'. by apply lookup_app_l.
  - apply snoc_lookup_last.
  - unfold shuffleArray. rewrite shuffle_loop_by. apply shuffle_by_perm.
  - unfold shuffleArray. rewrite shuffle_loop_by. apply shuffle_by_length.
  - destruct array as [|x array]; [constructor|].
    eapply Forall_impl;
      [apply valid_choices_bound, choices_valid, Hrandom | simpl; lia].
Qed.


(** ** Requests in flight *)

Lemma owned_app i l1 l2 : owned i (l1 ++ l2) = owned i l1 + owned i l2.
Proof. unfold owned. by rewrite filter_app, length_app. Qed.

Lemma owned_below i l :
  (forall f, f ∈ l -> owner f < i) -> owned i l = 0.
Proof.
  unfold owned. induction l as [|f l IH]; intros H; [done|].
  rewrite filter_cons. destruct (decide (owner f = i)) as [E|_].
  - specialize (H f (list_elem_of_here _ _)). lia.
  - apply IH. intros g Hg. apply H. by apply list_elem_of_further.
Qed.

Lemma owned_delete i l n f :
  l !! n = Some f ->
  owned i (delete n l)
  = owned i l - (if decide (owner f = i) then 1 else 0).
Proof.
  unfold owned. revert n. induction l as [|g l IH]; intros [|n] H;
    simplify_eq/=.
  - rewrite filter_cons. destruct (decide (owner f = i)); simpl; lia.
  - rewrite !filter_cons.
    destruct (decide (owner g = i)); simpl; rewrite (IH _ H);
      destruct (decide (owner f = i)); simpl; try lia.
    assert (0 < length (filter (fun f0 => owner f0 = i) l)); [|lia].
    apply list_elem_of_lookup_2 in H.
    assert (Hin : f ∈ filter (fun f0 => owner f0 = i) l)
      by (apply list_elem_of_filter; done).
    destruct (filter _ l); [by apply elem_of_nil in Hin | simpl; lia].
Qed.

Lemma elem_of_delete_list {A : Type} (l : list A) n x :
  x ∈ delete n l -> x ∈ l.
Proof.
  revert n. induction l as [|y l IH]; intros [|n] H; simpl in *; try done.
  - by apply list_elem_of_further.
  - apply elem_of_cons in H as [->|H]; [apply list_elem_of_here|].
    apply list_elem_of_further. by eapply IH.
Qed.

Lemma owned_own i r : owned i [mkFetch i r] = 1.
Proof. unfold owned. rewrite filter_cons. simpl. by rewrite decide_True. Qed.

(** ** The invariant is kept by every event *)

Lemma activeCategory_of a i pend s :
  screenPre a i pend s -> exists category, activeCategory a = Some category.
Proof.
  intros [_ (config & category & Hc & Hh & _) _ _ _ _ _ _].
  exists category. unfold activeCategory. by rewrite Hc.
Qed.

Lemma needsMore_loading s :
  isLoadingMore (GameScreen.gameState s) = true ->
  GameScreen.needsMore s = false.
Proof. unfold GameScreen.needsMore. intros ->. by rewrite andb_false_r. Qed.

Lemma needsMore_true s :
  GameScreen.needsMore s = true ->
  isLoadingMore (GameScreen.gameState s) = false.
Proof.
  unfold GameScreen.needsMore. intros H.
  apply andb_prop in H as [_ H]. by apply negb_true_iff in H.
Qed.

Lemma rerender_inv w s :
  (forall f, f ∈ pending w -> owner f <= instance w) ->
  crashed w = false ->
  screenPre (app w) (instance w) (pending w) s ->
  worldInv (rerender s w).
Proof.
  intros Hown Hcr Hpre.
  destruct (activeCategory_of _ _ _ _ Hpre) as [category Hcat].
  unfold rerender. rewrite Hcat. unfold GameScreen.fetchEffect.
  destruct (GameScreen.needsMore s) eqn:Hn.
  - pose proof (needsMore_true s Hn) as Hl.
    destruct Hpre as [P1 P2 P3 P4 P5 P8 P6 P7].
    split; simpl.
    + intros f Hf. apply elem_of_app in Hf as [Hf|Hf]; [by apply Hown|].
      apply list_elem_of_singleton in Hf as ->. done.
    + intros s' E. injection E as <-. split; [split; simpl; try done|].
      * rewrite owned_app, P6, Hl. simpl. apply owned_own.
      * by apply needsMore_loading.
    + congruence.
  - split; simpl.
    + intros f Hf. rewrite app_nil_r in Hf. by apply Hown.
    + intros s' E. injection E as <-. split; [|done].
      rewrite app_nil_r. done.
    + congruence.
Qed.

Lemma screen_playing w s :
  worldInv w -> screen w = Some s -> App.gameState (app w) = App.playing.
Proof. intros [_ H _] E. by destruct (H s E) as [[] _]. Qed.

Lemma outOfPrompts_false s :
  GameScreen.needsMore s = false ->
  GameScreen.outOfPrompts s = false ->
  S (GameScreen.currentPromptIndex s)
    < length (availablePrompts (GameScreen.gameState s)).
Proof.
  unfold GameScreen.outOfPrompts, GameScreen.needsMore.
  destruct (isLoadingMore (GameScreen.gameState s)).
  - rewrite andb_true_r. intros _ H.
    rewrite Z.geb_leb in H. apply Z.leb_gt in H. lia.
  - rewrite andb_true_r. intros H _. apply Z.leb_gt in H. lia.
Qed.

Lemma handleResult_pre a i pend s correct :
  screenPre a i pend s ->
  GameScreen.needsMore s = false ->
  GameScreen.showCountdown s = false ->
  screenPre a i pend (GameScreen.handleResult correct s).
Proof.
  intros [P1 (config & category & Hc & Hh & Ht) P3 P4 P5 P8 P6 P7] Hn Hs.
  pose proof (outOfPrompts_false s Hn) as Hadv.
  unfold GameScreen.handleResult.
  destruct (GameScreen.outOfPrompts s).
  - split; simpl; try done.
    + exists config, category. repeat split; try done; congruence.
    + by rewrite fmap_app, P4.
    + by apply sublist_inserts_r.
    + apply Forall_app. split; [done|].
      constructor; [|done]. right.
      by exists (GameScreen.currentPromptIndex s).
  - specialize (Hadv eq_refl).
    split; simpl; try done.
    + exists config, category. repeat split; try done; congruence.
    + lia.
    + by rewrite fmap_app, P4.
    + destruct (lookup_lt_is_Some_2 (availablePrompts (GameScreen.gameState s))
                  (GameScreen.currentPromptIndex s)) as [x Hx]; [lia|].
      rewrite Hx. rewrite Nat.add_1_r.
      rewrite (take_S_r _ _ x Hx), fmap_app. simpl.
      by apply sublist_app.
    + apply Forall_app. split.
      * eapply Forall_impl; [exact P8|]. simpl.
        intros u [->|(n & Hn' & Hu)]; [by left|].
        right. exists n. split; [lia | done].
      * constructor; [|done]. right.
        exists (GameScreen.currentPromptIndex s). split; [lia | done].
Qed.

Lemma fetchSettled_pre a i pend s o random n f :
  screenPre a i pend s ->
  pend !! n = Some f -> owner f = i ->
  screenPre a i (delete n pend) (GameScreen.fetchSettled o random 0 s).
Proof.
  intros [P1 (config & category & Hc & Hh & Ht) P3 P4 P5 P8 P6 P7] Hn Ho.
  assert (Hown : owned i (delete n pend) = 0).
  { rewrite (owned_delete _ _ _ _ Hn), P6, decide_True by done.
    destruct (isLoadingMore _); reflexivity. }
  destruct o as [|content]; simpl.
  - split; simpl; try done. exists config, category. by repeat split.
  - split; simpl; try done.
    + exists config, category. by repeat split.
    + rewrite length_app. lia.
    + destruct (availablePrompts (GameScreen.gameState s)) as [|x q] eqn:Hq.
      * simpl in P3. assert (GameScreen.currentPromptIndex s = 0) as -> by lia.
        simpl. apply sublist_nil_l.
      * rewrite take_app_le by (simpl in *; lia). done.
    + eapply Forall_impl; [exact P8|]. simpl.
      intros u [->|(m & Hm & Hu)]; [by left|].
      destruct u as [x|]; [|by left].
      right. exists m. split; [done|]. by apply lookup_app_l_Some.
    + by apply prefix_app_r.
Qed.

Lemma countdownTick_pre a i pend s :
  screenPre a i pend s ->
  GameScreen.showCountdown s = true ->
  screenPre a i pend (GameScreen.countdownTick s).
Proof.
  intros [P1 (config & category & Hc & Hh & Ht) P3 P4 P5 P8 P6 P7] Hs.
  unfold GameScreen.countdownTick.
  destruct (GameScreen.count s) as [|[|c]]; split; simpl; try done;
    exists config, category; repeat split; try done; auto.
Qed.

Lemma setTimeLeft_pre a i pend s t :
  screenPre a i pend s ->
  GameScreen.showCountdown s = false ->
  screenPre a i pend (GameScreen.setTimeLeft t s).
Proof.
  intros [P1 (config & category & Hc & Hh & Ht) P3 P4 P5 P8 P6 P7] Hs.
  split; simpl; try done.
  exists config, category. repeat split; try done; congruence.
Qed.

Lemma init_pre a i pend config category :
  App.gameState a = App.playing ->
  App.gameConfig a = Some config ->
  head (App.categories config) = Some category ->
  owned i pend = 0 ->
  screenPre a i pend (GameScreen.init (propsOf a config category)).
Proof.
  intros Hp Hc Hh Ho. split; simpl; try done.
  all: try lia; try apply sublist_nil_l.
  all: exists config, category; by repeat split.
Qed.

Lemma mount_inv a w :
  worldInv w -> screen w = None -> crashed w = false ->
  worldInv (mount a w).
Proof.
  intros [Hown Hscr Hcr] Hnone Hc. unfold mount.
  destruct (App.gameState a) eqn:Hp;
    try (split; simpl; [done | intros s E; congruence | done]).
  destruct (App.gameConfig a) as [config|] eqn:Hcfg;
    try (split; simpl; [done | intros s E; congruence | done]).
  destruct (head (App.categories config)) as [category|] eqn:Hh;
    try (split; simpl; [done | intros s E; congruence | done]).
  set (w1 := {| app := a; screen := None; instance := S (instance w);
                pending := pending w; emitted := emitted w;
                crashed := false |}).
  pose proof (rerender_inv w1 (GameScreen.init (propsOf a config category)))
    as Hr.
  unfold rerender, activeCategory in Hr. simpl in Hr.
  rewrite Hcfg, Hh in Hr.
  destruct (GameScreen.fetchEffect category
              (GameScreen.init (propsOf a config category))) as [s reqs].
  apply Hr; try done.
  - intros f Hf. specialize (Hown f Hf). lia.
  - apply init_pre; try done. apply owned_below.
    intros f Hf. specialize (Hown f Hf). lia.
Qed.

Section PageFacts.
Variable catalog : list Category.
Variable pools : string -> list string.

Lemma step_inv e w :
  worldInv w -> worldInv (step catalog pools e w).
Proof.
  intros Hinv. pose proof Hinv as [Hown Hscr Hcrash].
  unfold step. destruct (crashed w) eqn:Hcr; [done|].
  destruct e as [env duration categories| | |correct|n o random|].
  - destruct (App.gameState (app w)) eqn:Hp; try done.
    destruct (App.isLoading (app w)); try done.
    apply mount_inv; try done.
    destruct (screen w) as [s|] eqn:Hs; [|done].
    pose proof (screen_playing w s Hinv Hs). congruence.
  - destruct (screen w) as [s|] eqn:Hs; [|done].
    destruct (GameScreen.showCountdown s) eqn:Hc; [|done].
    destruct (Hscr s eq_refl) as [Hpre Hn].
    apply rerender_inv; try done. by apply countdownTick_pre.
  - destruct (screen w) as [s|] eqn:Hs; [|done].
    destruct (GameScreen.showCountdown s) eqn:Hc; [done|].
    destruct (Hscr s eq_refl) as [Hpre Hn].
    unfold GameScreen.tick. destruct (Qle_bool (GameScreen.timeLeft s) 1).
    + split; simpl; [done | intros s' E; congruence | done].
    + apply rerender_inv; try done. by apply setTimeLeft_pre.
  - destruct (screen w) as [s|] eqn:Hs; [|done].
    destruct (GameScreen.showCountdown s) eqn:Hc; [done|].
    destruct (Hscr s eq_refl) as [Hpre Hn].
    apply rerender_inv; try done. by apply handleResult_pre.
  - destruct (pending w !! n) as [f|] eqn:Hf; [|done].
    destruct (screen w) as [s|] eqn:Hs.
    + destruct (Hscr s eq_refl) as [Hpre Hn].
      destruct (Nat.eqb_spec (owner f) (instance w)) as [E|E].
      * apply rerender_inv; simpl; try done.
        -- intros g Hg. apply Hown. by eapply list_elem_of_delete_inv.
        -- by eapply fetchSettled_pre.
      * split; simpl.
        -- intros g Hg. apply Hown. by eapply list_elem_of_delete_inv.
        -- intros s' Es. rewrite Hs in Es. injection Es as <-.
           split; [|done]. destruct Hpre as [P1 P2 P3 P4 P5 P8 P6 P7].
           split; try done. simpl.
           rewrite (owned_delete _ _ _ _ Hf), decide_False by done.
           rewrite P6. lia.
        -- congruence.
    + split; simpl.
      * intros g Hg. apply Hown. by eapply list_elem_of_delete_inv.
      * intros s' Es. congruence.
      * done.
  - destruct (App.gameState (app w)) eqn:Hp; try done.
    destruct (screen w) as [s|] eqn:Hs.
    + pose proof (screen_playing w s Hinv Hs). congruence.
    + split; simpl; [done | intros s' E; congruence | done].
Qed.

Lemma initial_inv : worldInv initialWorld.
Proof.
  split; simpl; [|done|done]. intros f Hf. by apply elem_of_nil in Hf.
Qed.

Lemma reachable_inv w :
  reachable catalog pools w -> worldInv w.
Proof.
  induction 1 as [|e w _ IH]; [apply initial_inv | by apply step_inv].
Qed.
End PageFacts.

(** ** Substitution into the prompt template *)

Lemma append_cons x (a b : string) : String x a +:+ b = String x (a +:+ b).
Proof. reflexivity. Qed.

Lemma append_nil_l (b : string) : "" +:+ b = b.
Proof. reflexivity. Qed.

Lemma append_assoc (a b c : string) : (a +:+ b) +:+ c = a +:+ (b +:+ c).
Proof.
  induction a as [|x a IH]; [done|]. rewrite !append_cons. by f_equal.
Qed.

Lemma append_nil_r (a : string) : a +:+ "" = a.
Proof.
  induction a as [|x a IH]; [done|]. rewrite append_cons. by f_equal.
Qed.

Lemma has_char_append c a b :
  has_char c (a +:+ b) = has_char c a || has_char c b.
Proof.
  induction a as [|x a IH]; [done|]. rewrite append_cons. simpl.
  rewrite <- orb_assoc. f_equal. exact IH.
Qed.

Lemma get_substitution_plain repl matched pre post :
  has_char "$" repl = false ->
  get_substitution repl matched pre post = repl.
Proof.
  induction repl as [|c r IH]; simpl; [done|].
  intros H. apply orb_false_elim in H as [Hc Hr].
  rewrite Hc. f_equal. by apply IH.
Qed.

Lemma split_first_skip c0 rest s1 s2 :
  has_char c0 s1 = false ->
  split_first (String c0 rest) (s1 +:+ s2)
  = match split_first (String c0 rest) s2 with
    | Some (a, b) => Some (s1 +:+ a, b)
    | None => None
    end.
Proof.
  induction s1 as [|c s1 IH].
  - intros _. rewrite append_nil_l.
    by destruct (split_first (String c0 rest) s2) as [[a b]|].
  - rewrite append_cons. simpl.
    intros H. apply orb_false_elim in H as [Hc Hr].
    destruct (ascii_dec c0 c) as [->|_].
    + by rewrite Ascii.eqb_refl in Hc.
    + rewrite (IH Hr).
      by destruct (split_first (String c0 rest) s2) as [[a b]|].
Qed.



Lemma template_filled count category exclusions :
  has_char "$" count = false -> has_char "{" count = false ->
  plain category = true ->
  has_char "$" exclusions = false ->
  js_replace
    (js_replace (js_replace BASE_PROMPT "{count}" count)
       "{category}" category)
    "{exclusions}" exclusions
  = promptText count category exclusions.
Proof.
  intros Hc1 Hc2 Hp He. unfold plain in Hp.
  apply andb_prop in Hp as [Hp1 Hp2].
  apply negb_true_iff in Hp1, Hp2.
  set (rest1 := " {category} for a game of charades." +:+ newline +:+
    "Format: One item per line, no numbers, no extra text." +:+ newline +:+
    "Keep items simple, and don't only include the most popular items (otherwise, it's the same every time)." +:+ newline +:+
    "Items should be easy to describe or act out." +:+ newline +:+
    "Do not include any introductory text or explanations." +:+ newline +:+
    "{exclusions}").
  set (rest2 := " for a game of charades." +:+ newline +:+
    "Format: One item per line, no numbers, no extra text." +:+ newline +:+
    "Keep items simple, and don't only include the most popular items (otherwise, it's the same every time)." +:+ newline +:+
    "Items should be easy to describe or act out." +:+ newline +:+
    "Do not include any introductory text or explanations." +:+ newline).
  assert (E1 : js_replace BASE_PROMPT "{count}" count
               = "Generate exactly " +:+ (count +:+ rest1)).
  { unfold js_replace.
    replace (split_first "{count}" BASE_PROMPT)
      with (Some ("Generate exactly ", rest1)) by (vm_compute; reflexivity).
    by rewrite get_substitution_plain. }
  rewrite E1.
  assert (E2 : js_replace ("Generate exactly " +:+ (count +:+ rest1))
                 "{category}" category
               = ("Generate exactly " +:+ (count +:+ " ")) +:+
                 (category +:+ (rest2 +:+ "{exclusions}"))).
  { unfold js_replace.
    rewrite (split_first_skip "{" "category}" "Generate exactly " _ eq_refl).
    rewrite (split_first_skip "{" "category}" count _ Hc2).
    replace (split_first "{category}" rest1)
      with (Some (" ", rest2 +:+ "{exclusions}")) by (vm_compute; reflexivity).
    rewrite get_substitution_plain by done.
    by rewrite !append_assoc. }
  rewrite E2.
  unfold js_replace.
  rewrite (split_first_skip "{" "exclusions}"
             ("Generate exactly " +:+ (count +:+ " ")) _).
  2:{ rewrite !has_char_append, Hc2. reflexivity. }
  rewrite (split_first_skip "{" "exclusions}" category _ Hp2).
  replace (split_first "{exclusions}" (rest2 +:+ "{exclusions}"))
    with (Some (rest2, "")) by (vm_compute; reflexivity).
  rewrite get_substitution_plain by done.
  unfold promptText. rewrite append_nil_r.
  rewrite !append_assoc. reflexivity.
Qed.

(** ** The replenishment effect *)



(** The effect changes nothing but the in-flight flag. *)
Lemma fetchEffect_keeps category s :
  let s' := (GameScreen.fetchEffect category s).1 in
  GameScreen.currentPromptIndex s' = GameScreen.currentPromptIndex s
  /\ availablePrompts (GameScreen.gameState s')
     = availablePrompts (GameScreen.gameState s)
  /\ usedPrompts (GameScreen.gameState s')
     = usedPrompts (GameScreen.gameState s)
  /\ GameScreen.results s' = GameScreen.results s
  /\ GameScreen.timeLeft s' = GameScreen.timeLeft s
  /\ GameScreen.showCountdown s' = GameScreen.showCountdown s.
Proof.
  unfold GameScreen.fetchEffect.
  by destruct (GameScreen.needsMore s).
Qed.

Lemma rerender_fields w s category :
  activeCategory (app w) = Some category ->
  screen (rerender s w) = Some (GameScreen.fetchEffect category s).1
  /\ pending (rerender s w)
     = pending w
       ++ map (mkFetch (instance w)) (GameScreen.fetchEffect category s).2
  /\ app (rerender s w) = app w
  /\ instance (rerender s w) = instance w
  /\ emitted (rerender s w) = emitted w
  /\ crashed (rerender s w) = crashed w.
Proof.
  intros H. unfold rerender. rewrite H.
  by destruct (GameScreen.fetchEffect category s).
Qed.

Lemma shuffleArray_perm {T : Type} random k (l : list T) :
  shuffleArray random k l ≡ₚ l.
Proof. unfold shuffleArray. rewrite shuffle_loop_by. apply shuffle_by_perm. Qed.

Lemma shuffleArray_length {T : Type} random k (l : list T) :
  length (shuffleArray random k l) = length l.
Proof. unfold shuffleArray. rewrite shuffle_loop_by. apply shuffle_by_length. Qed.



(** ** Reachable states of the page *)

Section RoundFacts.
Variable catalog : list Category.
Variable pools : string -> list string.

Lemma reachable_run events w :
  reachable catalog pools w -> reachable catalog pools (run catalog pools events w).
Proof.
  revert w. induction events as [|e events IH]; intros w H; [done|].
  apply IH. by constructor.
Qed.

Lemma run_app events1 events2 w :
  run catalog pools (events1 ++ events2) w
  = run catalog pools events2 (run catalog pools events1 w).
Proof. unfold run. apply foldl_app. Qed.

Lemma mounted_facts w s :
  worldInv w -> screen w = Some s ->
  crashed w = false
  /\ (exists category, activeCategory (app w) = Some category)
  /\ screenPre (app w) (instance w) (pending w) s
  /\ GameScreen.needsMore s = false.
Proof.
  intros [Hown Hscr Hcr] Hs. destruct (Hscr s Hs) as [Hpre Hn].
  split_and!; try done.
  - destruct (crashed w); [|done]. rewrite Hcr in Hs; done.
  - by eapply activeCategory_of.
Qed.





End RoundFacts.

(** ** The round clock *)




Section ClockFacts.
Variable catalog : list Category.
Variable pools : string -> list string.







End ClockFacts.

Section Clock.
Variable catalog : list Category.
Variable pools : string -> list string.

End Clock.

(** C4, at a failing input: the custom category "Disney Characters" is
    the only one selected and the generator answers with an empty text.
    The round starts with an empty queue, so no prompt is on screen; the
    judgment made then is recorded all the same, with an [undefined]
    prompt, and it is part of the results emitted at the end. *)
Example judgment_without_prompt :
  let w0 :=
    exampleRun
      [StartGame (answering (Responds (Some ""))) 1 [disney];
       CountdownTick; CountdownTick; CountdownTick] initialWorld in
  let w1 := exampleStep (Judge true) w0 in
  (availablePrompts ∘ GameScreen.gameState) <$> screen w0 = Some []
  /\ GameScreen.showCountdown <$> screen w0 = Some false
  /\ GameScreen.results <$> screen w1 = Some [mkResult None true]
  /\ (usedPrompts ∘ GameScreen.gameState) <$> screen w1 = Some [None]
  /\ emitted (exampleRun (repeat Tick 60) w1) = [[mkResult None true]].
Proof. vm_compute. repeat split. Qed.


(** ** Setup *)

Lemma quota_covers n :
  1 <= n -> 50 <= n * Z.to_nat (Qceiling (50 / inject_Z (Z.of_nat n))).
Proof.
  intros Hn.
  set (x := (50 / inject_Z (Z.of_nat n))%Q).
  pose proof (Qle_ceiling x) as Hc.
  assert (Hpos : (0 < inject_Z (Z.of_nat n))%Q).
  { replace 0%Q with (inject_Z 0) by reflexivity. rewrite <- Zlt_Qlt. lia. }
  assert (Hx : (50 == x * inject_Z (Z.of_nat n))%Q).
  { unfold x. field. intros Hz. rewrite Hz in Hpos.
    by apply Qlt_irrefl in Hpos. }
  apply (Qmult_le_compat_r _ _ (inject_Z (Z.of_nat n))) in Hc;
    [|by apply Qlt_le_weak].
  rewrite <- Hx, <- inject_Z_mult in Hc.
  change 50%Q with (inject_Z 50) in Hc. rewrite <- Zle_Qle in Hc.
  assert (0 <= Qceiling x)%Z by nia.
  nia.
Qed.

Section SetupFacts.
Variable catalog : list Category.
Variable pools : string -> list string.

Lemma visit_canned env quota acc c :
  App.isCustom c = false ->
  App.visit pools env quota acc c
  = Some {| App.allPrompts :=
              App.allPrompts acc
              ++ App.getRandomOptionsForCategory pools (App.random env)
                   (App.draws acc) (cat_id c) quota;
            App._promptCategories :=
              foldl (fun m p => <[p := cat_name c]> m)
                (App._promptCategories acc)
                (App.getRandomOptionsForCategory pools (App.random env)
                   (App.draws acc) (cat_id c) quota);
            App.visits := App.visits acc;
            App.draws :=
              App.draws acc + shuffle_draws (pools (cat_id c)) |}.
Proof. intros H. unfold App.visit, App.categoryPrompts. by rewrite H. Qed.

Lemma visit_custom env quota acc c reply :
  App.isCustom c = true ->
  App.isOnline env (App.visits acc) = true ->
  App.respond env (App.visits acc) = Responds reply ->
  App.visit pools env quota acc c
  = Some {| App.allPrompts := App.allPrompts acc ++ parse_lines reply;
            App._promptCategories :=
              foldl (fun m p => <[p := cat_name c]> m)
                (App._promptCategories acc) (parse_lines reply);
            App.visits := S (App.visits acc);
            App.draws := App.draws acc |}.
Proof.
  intros H Ho Hr. unfold App.visit, App.categoryPrompts.
  by rewrite H, Ho, Hr.
Qed.




(** Without pool exhaustion and with a generator that delivers what it
    is asked for, every category adds exactly its quota. *)
Lemma collect_full env n categories : forall acc,
  (forall c, c ∈ categories -> App.isCustom c = false ->
             n <= length (pools (cat_id c))) ->
  (forall v, App.isOnline env v = true
             /\ exists reply, App.respond env v = Responds reply
                              /\ length (parse_lines reply) = n) ->
  exists acc',
    App.collect pools env (Num n) acc categories = Some acc'
    /\ length (App.allPrompts acc')
       = length (App.allPrompts acc) + length categories * n.
Proof.
  induction categories as [|c cats IH]; intros acc Hpool Henv.
  - exists acc. split; [done | simpl; lia].
  - simpl. destruct (App.isCustom c) eqn:Hc.
    + destruct (Henv (App.visits acc)) as (Ho & reply & Hr & Hp).
      rewrite (visit_custom env (Num n) acc c reply) by done.
      edestruct IH as (acc' & E & L); [| exact Henv |].
      { intros c' Hc'. apply Hpool. by apply list_elem_of_further. }
      exists acc'. split; [exact E|]. rewrite L. simpl.
      rewrite length_app, Hp. lia.
    + rewrite visit_canned by done.
      edestruct IH as (acc' & E & L); [| exact Henv |].
      { intros c' Hc'. apply Hpool. by apply list_elem_of_further. }
      exists acc'. split; [exact E|]. rewrite L. simpl.
      rewrite length_app. unfold App.getRandomOptionsForCategory. simpl.
      rewrite length_take, shuffleArray_length.
      specialize (Hpool c (list_elem_of_here _ _) Hc). lia.
Qed.
End SetupFacts.

Section Setup.
Variable catalog : list Category.
Variable pools : string -> list string.

Lemma sampled_cases categories :
  (App.sampledCategories catalog categories = categories)
  \/ (exists c, categories = [c] /\ cat_id c = "misc"
      /\ App.sampledCategories catalog categories
         = List.filter
             (fun c => negb (String.eqb (cat_id c) "custom")
                       && negb (String.eqb (cat_id c) "misc"))
             catalog).
Proof.
  destruct categories as [|c [|c' cats]]; [by left | | by left].
  simpl. destruct (String.eqb_spec (cat_id c) "misc") as [E|E];
    [right; by exists c | by left].
Qed.


(** C7 (amended). The quota of every sampled category is
    [ceil(50 / n)] for [n] the number of categories handed to
    [startGame], counted before the "all categories" entry is
    expanded. A selection that is exactly that entry is replaced by the
    catalog without the custom entry and the entry itself, each with
    the same quota 50; any other selection is sampled as it is. A
    canned category supplies its quota, or its whole pool when that is
    smaller. When no pool is smaller than the quota and every generator
    call delivers the quota, the round starts with quota times the
    number of sampled categories prompts, at least 50. *)
Theorem setup_quota (env : App.Env) (duration : Q)
    (categories : list Category) :
  categories <> [] ->
  let n :=
    Z.to_nat (Qceiling (50 / inject_Z (Z.of_nat (length categories)))) in
  let sampled := App.sampledCategories catalog categories in
  App.promptsPerCategory (length categories) = Num n
  /\ ((exists c, categories = [c] /\ cat_id c = "misc") ->
      n = 50
      /\ sampled
         = List.filter
             (fun c => negb (String.eqb (cat_id c) "custom")
                       && negb (String.eqb (cat_id c) "misc"))
             catalog)
  /\ ((forall c, categories = [c] -> cat_id c <> "misc") ->
      sampled = categories)
  /\ (forall acc c, App.isCustom c = false ->
        exists ps,
          App.categoryPrompts pools env (Num n) acc c = Some ps
          /\ length ps = n `min` length (pools (cat_id c)))
  /\ (sampled <> [] ->
      (forall c, c ∈ sampled -> App.isCustom c = false ->
                 n <= length (pools (cat_id c))) ->
      (forall v, App.isOnline env v = true
                 /\ exists reply, App.respond env v = Responds reply
                                  /\ length (parse_lines reply) = n) ->
      exists prompts cats config,
        App.startGame_try catalog pools env duration categories
        = Some (prompts, cats, config)
        /\ App.categories config = sampled
        /\ length prompts = length sampled * n
        /\ 50 <= length prompts).
Proof.
  intros Hne n sampled.
  assert (Hq : App.promptsPerCategory (length categories) = Num n).
  { destruct categories; [done|]. reflexivity. }
  split; [done|]. split; [|split; [|split]].
  - intros (c & -> & Hm). split; [reflexivity|].
    unfold sampled. simpl. by rewrite Hm.
  - intros Hnot. unfold sampled.
    destruct (sampled_cases categories) as [E | (c & -> & Hm & _)];
      [done | by destruct (Hnot c eq_refl)].
  - intros acc c Hc. unfold App.categoryPrompts. rewrite Hc.
    eexists. split; [done|].
    unfold App.getRandomOptionsForCategory. simpl.
    by rewrite length_take, shuffleArray_length.
  - intros Hs Hpool Henv.
    destruct (collect_full pools env n sampled (App.mkAcc [] ∅ 0 0)
                Hpool Henv) as (acc & E & L).
    do 3 eexists. unfold App.startGame_try. fold sampled.
    rewrite Hq, E. split; [done|]. split; [done|].
    rewrite shuffleArray_length, L. simpl. split; [done|].
    destruct (sampled_cases categories) as [E' | (c & Ec & Hm & _)].
    + fold sampled in E'. rewrite E'.
      apply quota_covers. destruct categories; [done | simpl; lia].
    + assert (n = 50) as -> by (unfold n; rewrite Ec; reflexivity).
      destruct sampled; [done | simpl; lia].
Qed.
End Setup.


(** C7, counterexample: "All Categories" alone is selected in a catalog
    with two canned categories. The quota is [ceil(50 / 1) = 50], not
    [ceil(50 / 2) = 25]: with pools of 30 entries each category supplies
    all 30, and the round starts with 60 prompts. *)
Lemma quota_counts_selection_not_sample :
  let sampled := App.sampledCategories exampleCategories [allCategories] in
  sampled = [animals; movies]
  /\ App.promptsPerCategory (length [allCategories]) = Num 50
  /\ App.promptsPerCategory (length sampled) = Num 25
  /\ App.promptsPerCategory (length [allCategories])
     <> App.promptsPerCategory (length sampled)
  /\ (length ∘ App.prompts)
       (App.startGame exampleCategories thirtyOptions (answering Throws) 1
          [allCategories] App.init) = 60.
Proof. vm_compute. split_and!; try reflexivity. discriminate. Qed.

(** ** The theorems at concrete inputs *)

Lemma example_reachable events :
  reachable exampleCategories exampleOptions (exampleRun events initialWorld).
Proof. apply reachable_run, reachable_init. Qed.

Lemma shuffleArray_permutation_witness :
  let '(h', shuffled) :=
    shuffleArray_ref (fun _ => 1 # 2) 0 [["a"; "b"; "c"]] 0 in
  shuffled <> 0
  /\ [["a"; "b"; "c"]] !! shuffled = None
  /\ h' !! 0 = Some ["a"; "b"; "c"]
  /\ (forall r', r' < 1 -> h' !! r' = [["a"; "b"; "c"]] !! r')
  /\ h' !! shuffled = Some (shuffleArray (fun _ => 1 # 2) 0 ["a"; "b"; "c"])
  /\ shuffleArray (fun _ => 1 # 2) 0 ["a"; "b"; "c"] ≡ₚ ["a"; "b"; "c"]
  /\ length (shuffleArray (fun _ => 1 # 2) 0 ["a"; "b"; "c"]) = 3
  /\ Forall (fun j => j < 3) (choices (fun _ => 1 # 2) 0 2).
Proof.
  apply (shuffleArray_permutation (fun _ => 1 # 2) 0 [["a"; "b"; "c"]] 0
           ["a"; "b"; "c"]).
  - intros n. split; [discriminate | reflexivity].
  - reflexivity.
Defined.







Lemma setup_quota_witness :
  (App.promptsPerCategory (length [animals; movies; disney]) = Num 17)
  /\ (App.sampledCategories exampleCategories [allCategories]
      = [animals; movies])
  /\ (App.sampledCategories exampleCategories [animals; movies]
      = [animals; movies])
  /\ (exists ps,
        App.categoryPrompts exampleOptions (answering Throws) (Num 25)
          (App.mkAcc [] ∅ 0 0) animals = Some ps
        /\ length ps = 5)
  /\ (exists prompts cats config,
        App.startGame_try exampleCategories thirtyOptions
          (answering (Responds (Some twentyFiveItems))) 1 [animals; disney]
        = Some (prompts, cats, config)
        /\ App.categories config = [animals; disney]
        /\ length prompts = 50
        /\ 50 <= length prompts).
Proof.
  assert (Hne3 : [animals; movies; disney] <> []) by discriminate.
  assert (Hne2 : [animals; movies] <> []) by discriminate.
  assert (Hne1 : [allCategories] <> []) by discriminate.
  split; [|split; [|split; [|split]]].
  - exact (proj1 (setup_quota exampleCategories exampleOptions
                    (answering Throws) 1 [animals; movies; disney] Hne3)).
  - destruct (setup_quota exampleCategories exampleOptions
                (answering Throws) 1 [allCategories] Hne1) as (_ & H & _).
    destruct H as (_ & E); [by exists allCategories|]. exact E.
  - destruct (setup_quota exampleCategories exampleOptions
                (answering Throws) 1 [animals; movies] Hne2)
      as (_ & _ & H & _).
    apply H. intros c Hc. injection Hc. discriminate.
  - destruct (setup_quota exampleCategories exampleOptions
                (answering Throws) 1 [animals; movies] Hne2)
      as (_ & _ & _ & H & _).
    destruct (H (App.mkAcc [] ∅ 0 0) animals eq_refl) as (ps & E & L).
    exists ps. split; [exact E | exact L].
  - assert (Hne : [animals; disney] <> []) by discriminate.
    destruct (setup_quota exampleCategories thirtyOptions
                (answering (Responds (Some twentyFiveItems))) 1
                [animals; disney] Hne)
      as (_ & _ & _ & _ & H).
    destruct H as (prompts & cats & config & E & C & L & B).
    + discriminate.
    + intros c Hc _. unfold thirtyOptions.
      rewrite length_fmap, length_seq.
      change (Z.to_nat (Qceiling (50 / inject_Z (Z.of_nat
                (length [animals; disney]))))) with 25. lia.
    + intros v. split; [reflexivity|].
      exists (Some twentyFiveItems). split; [reflexivity|].
      vm_compute. reflexivity.
    + exists prompts, cats, config. split; [exact E|].
      split; [exact C|]. split; [exact L | exact B].
Defined.

(** * Further properties *)

(** ** Category selection *)

Lemma eqb_misc_false (id : string) : id <> "misc" -> String.eqb id "misc" = false.
Proof. intros H. by apply String.eqb_neq. Qed.

Lemma click_facts (categoryId : string) (isCheckbox : bool)
    (prev : gset string) :
  let next := GameSetup.handleCategoryClick categoryId isCheckbox prev in
  next <> ∅
  /\ ("misc" ∈ next -> next = {["misc"]})
  /\ (categoryId = "misc" -> next = {["misc"]})
  /\ (isCheckbox = false -> next = {[categoryId]})
  /\ (prev = {[categoryId]} -> next = {[categoryId]}).
Proof.
  unfold GameSetup.handleCategoryClick.
  destruct (String.eqb_spec categoryId "misc") as [->|Hne].
  { rewrite bool_decide_false by (rewrite size_singleton; lia).
    split_and!; try done; set_solver. }
  destruct isCheckbox.
  - set (unmisc := if bool_decide ("misc" ∈ prev)
                   then prev ∖ {["misc"]} else prev).
    assert (Hun : "misc" ∉ unmisc).
    { unfold unmisc.
      destruct (bool_decide_reflect ("misc" ∈ prev)); simpl; set_solver. }
    assert (Hsub : unmisc ⊆ prev).
    { unfold unmisc.
      destruct (bool_decide_reflect ("misc" ∈ prev)); simpl; set_solver. }
    assert (Hone : prev = {[categoryId]} -> unmisc = {[categoryId]}).
    { intros ->. unfold unmisc. rewrite bool_decide_false; set_solver. }
    destruct (bool_decide (categoryId ∈ unmisc)) eqn:Hin.
    + apply bool_decide_eq_true in Hin.
      destruct (bool_decide_reflect (size (unmisc ∖ {[categoryId]}) = 0))
        as [Hsz|Hsz].
      * apply size_empty_iff in Hsz.
        split_and!; try done; try set_solver.
      * assert (unmisc ∖ {[categoryId]} <> ∅)
          by (intros E; apply Hsz; rewrite E; apply size_empty).
        split_and!; try done; try set_solver.
    + apply bool_decide_eq_false in Hin.
      rewrite bool_decide_false.
      2:{ intros Hsz. apply size_empty_iff in Hsz. set_solver. }
      split_and!; try done; try set_solver.
  - rewrite bool_decide_false by (rewrite size_singleton; lia).
    split_and!; try done; set_solver.
Qed.

(** X1. Whatever the selection was, after a click it is not empty; it
    holds "misc" only as its single member; a click on "misc" selects
    "misc" alone; a click on the text of a row selects that row alone;
    and a checkbox click on the only selected row leaves it selected. *)
Theorem click_keeps_selection (categoryId : string) (isCheckbox : bool)
    (prev : gset string) :
  let next := GameSetup.handleCategoryClick categoryId isCheckbox prev in
  next <> ∅
  /\ ("misc" ∈ next -> next = {["misc"]})
  /\ (categoryId = "misc" -> next = {["misc"]})
  /\ (isCheckbox = false -> next = {[categoryId]})
  /\ (prev = {[categoryId]} -> next = {[categoryId]}).
Proof. apply click_facts. Qed.

(** X2. Ticking a checkbox twice restores the selection, as long as
    "misc" is neither the row nor selected and another row stays
    selected in between. *)
Theorem checkbox_twice (categoryId : string) (prev : gset string) :
  categoryId <> "misc" -> "misc" ∉ prev -> prev ∖ {[categoryId]} <> ∅ ->
  GameSetup.handleCategoryClick categoryId true
    (GameSetup.handleCategoryClick categoryId true prev) = prev.
Proof.
  intros Hne Hm Hrest.
  assert (Hclick : forall sel : gset string, "misc" ∉ sel ->
            GameSetup.handleCategoryClick categoryId true sel
            = if bool_decide (categoryId ∈ sel)
              then (if bool_decide (size (sel ∖ {[categoryId]}) = 0)
                    then sel ∖ {[categoryId]} ∪ {[categoryId]}
                    else sel ∖ {[categoryId]})
              else sel ∪ {[categoryId]}).
  { intros sel Hs. unfold GameSetup.handleCategoryClick.
    rewrite (eqb_misc_false _ Hne), (bool_decide_false _ Hs).
    destruct (bool_decide (categoryId ∈ sel)); [done|].
    rewrite bool_decide_false; [done|].
    intros Hsz. apply size_empty_iff in Hsz. set_solver. }
  assert (Hsz : size (prev ∖ {[categoryId]}) <> 0).
  { intros E. apply size_empty_iff in E. apply Hrest. set_solver. }
  rewrite (Hclick prev Hm).
  destruct (bool_decide_reflect (categoryId ∈ prev)) as [Hin|Hin].
  - rewrite (bool_decide_false _ Hsz).
    rewrite Hclick by set_solver.
    rewrite bool_decide_false by set_solver.
    apply set_eq. intros x. rewrite elem_of_union, elem_of_difference,
      elem_of_singleton. destruct (decide (x = categoryId)); naive_solver.
  - rewrite Hclick by set_solver.
    rewrite bool_decide_true by set_solver.
    assert (E : (prev ∪ {[categoryId]}) ∖ {[categoryId]} = prev)
      by set_solver.
    rewrite E. rewrite bool_decide_false; [done|].
    intros Hz. apply size_empty_iff in Hz. set_solver.
Qed.

Lemma checkbox_twice_witness :
  GameSetup.handleCategoryClick "movies" true
    (GameSetup.handleCategoryClick "movies" true {["animals"; "movies"]})
  = {["animals"; "movies"]}.
Proof.
  apply checkbox_twice.
  - discriminate.
  - apply (bool_decide_unpack _). vm_compute. reflexivity.
  - apply (bool_decide_unpack _). vm_compute. reflexivity.
Defined.


Section SetupScreen.
Variable catalog : list Category.



(** X4. When "custom" is selected and the text box is not blank, the
    custom category built from the text comes last, after every
    selected row of the catalog, the catalog's own "custom" row
    included: the first category of the round is a catalog row, never
    the category the user typed. *)
Theorem typed_category_is_last (sel : gset string)
    (customCategory : string) (row : Category) :
  "custom" ∈ sel -> GameSetup.trim customCategory <> "" ->
  row ∈ catalog -> cat_id row = "custom" ->
  let typed := mkCategory "custom" (GameSetup.trim customCategory)
                 (GameSetup.trim customCategory) in
  let categories :=
    GameSetup.handleStartGame catalog sel customCategory in
  GameSetup.startDisabled false sel customCategory = false
  /\ last categories = Some typed
  /\ List.filter App.isCustom categories
     = List.filter App.isCustom
         (List.filter (fun cat => bool_decide (cat_id cat ∈ sel))
            catalog) ++ [typed]
  /\ exists first, head categories = Some first /\ first ∈ catalog.
Proof.
  intros Hc Ht Hrow Hid typed categories.
  assert (Htr : truthy (GameSetup.trim customCategory) = true).
  { by destruct (GameSetup.trim customCategory). }
  unfold categories, GameSetup.handleStartGame, GameSetup.startDisabled.
  rewrite (bool_decide_true _ Hc), Htr. simpl.
  split_and!; [done | apply last_snoc | |].
  - rewrite List.filter_app. simpl. done.
  - assert (Hin : row ∈ List.filter
              (fun cat => bool_decide (cat_id cat ∈ sel)) catalog).
    { rewrite list_elem_of_In, filter_In, <- list_elem_of_In.
      split; [done|]. apply bool_decide_eq_true. by rewrite Hid. }
    destruct (List.filter _ catalog) as [|first rest] eqn:E.
    + by apply elem_of_nil in Hin.
    + exists first. split; [done|].
      assert (first ∈ first :: rest) as Hf by apply list_elem_of_here.
      rewrite <- E in Hf.
      rewrite list_elem_of_In, filter_In, <- list_elem_of_In in Hf.
      tauto.
Qed.
End SetupScreen.


Lemma typed_category_is_last_witness :
  let typed := mkCategory "custom" "Disney Characters" "Disney Characters" in
  let categories :=
    GameSetup.handleStartGame exampleCategories {["custom"]}
      "  Disney Characters " in
  last categories = Some typed
  /\ head categories = Some (mkCategory "custom" "Custom" "custom").
Proof.
  intros typed categories.
  destruct (typed_category_is_last exampleCategories {["custom"]}
              "  Disney Characters " (mkCategory "custom" "Custom" "custom"))
    as (_ & L & _ & _).
  - apply (bool_decide_unpack _). vm_compute. reflexivity.
  - vm_compute. discriminate.
  - apply list_elem_of_In. simpl. auto.
  - reflexivity.
  - split; [exact L | vm_compute; reflexivity].
Defined.

(** ** Replies of the generator *)

Lemma split_lines_nonempty s : split_lines s <> [].
Proof.
  destruct s as [|c s]; simpl; [done|].
  destruct (Ascii.eqb c (Ascii.ascii_of_nat 10)); [done|].
  by destruct (split_lines s).
Qed.

Lemma split_lines_line s :
  has_char (Ascii.ascii_of_nat 10) s = false -> split_lines s = [s].
Proof.
  induction s as [|c s IH]; simpl; [done|].
  intros H. apply orb_false_elim in H as [Hc Hs].
  rewrite Hc, (IH Hs). done.
Qed.

Lemma split_lines_cons a b :
  has_char (Ascii.ascii_of_nat 10) a = false ->
  split_lines (a +:+ newline +:+ b) = a :: split_lines b.
Proof.
  induction a as [|c a IH]; intros H.
  - reflexivity.
  - simpl in H. apply orb_false_elim in H as [Hc Ha].
    rewrite append_cons. simpl. rewrite Hc, (IH Ha). done.
Qed.





(** X6. One item per line parses back: a list of items that are not
    empty, hold no line break and carry no leading item number is read
    back unchanged from its lines. *)
Theorem lines_round_trip (items : list string) :
  Forall (fun item => item <> ""
                      /\ has_char (Ascii.ascii_of_nat 10) item = false
                      /\ strip_number item = item) items ->
  parse_lines (Some (js_join newline (Some <$> items))) = items.
Proof.
  unfold parse_lines.
  induction 1 as [|item items (Hne & Hnl & Hstrip) Hall IH]; [done|].
  assert (Ht : truthy item = true) by (by destruct item).
  destruct items as [|item' items].
  - simpl. rewrite (split_lines_line item Hnl). simpl.
    by rewrite Hstrip, Ht.
  - change (js_join newline (Some <$> item :: item' :: items))
      with (item +:+ newline +:+ js_join newline (Some <$> item' :: items)).
    rewrite (split_lines_cons _ _ Hnl). simpl map.
    rewrite Hstrip. simpl List.filter. rewrite Ht. f_equal. exact IH.
Qed.

Lemma lines_round_trip_witness :
  parse_lines (Some (js_join newline [Some "Cat"; Some "Polar bear"]))
  = ["Cat"; "Polar bear"].
Proof.
  apply (lines_round_trip ["Cat"; "Polar bear"]).
  repeat constructor; (discriminate || reflexivity).
Defined.

Lemma skip_while_all p s a :
  forallb p (list_ascii_of_string s) = true ->
  skip_while p (s +:+ a) = skip_while p a.
Proof.
  induction s as [|c s IH]; [done|].
  rewrite append_cons. simpl.
  intros H. apply andb_prop in H as [Hc Hs].
  rewrite Hc. by apply IH.
Qed.

Lemma skip_while_stop p a :
  (forall c a', a = String c a' -> p c = false) -> skip_while p a = a.
Proof.
  destruct a as [|c a']; [done|]. intros H. simpl.
  by rewrite (H c a' eq_refl).
Qed.

(** X7. A leading item number is removed: for a line made of one or more
    digits, a dot, any run of white space and a text that does not start
    with white space, what remains is that text. A line that does not
    start with a digit is left as it is. *)
Theorem numbering_removed (digits spaces text : string) :
  digits <> "" ->
  forallb is_digit (list_ascii_of_string digits) = true ->
  forallb is_space (list_ascii_of_string spaces) = true ->
  (forall c rest, text = String c rest -> is_space c = false) ->
  strip_number (digits +:+ "." +:+ spaces +:+ text) = text
  /\ (forall c rest, is_digit c = false ->
        strip_number (String c rest) = String c rest).
Proof.
  intros Hne Hd Hs Ht. split.
  - destruct digits as [|d ds]; [done|].
    simpl in Hd. apply andb_prop in Hd as [Hd Hds].
    unfold strip_number. rewrite append_cons. rewrite Hd.
    rewrite <- append_cons.
    rewrite (skip_while_all is_digit (String d ds)).
    2:{ simpl. by rewrite Hd, Hds. }
    rewrite append_cons, append_nil_l. simpl skip_while at 1.
    change (is_digit ".") with false. cbv iota.
    change (Ascii.eqb "." ".") with true. cbv iota.
    rewrite (skip_while_all is_space spaces _ Hs).
    by apply skip_while_stop.
  - intros c rest Hc. unfold strip_number. by rewrite Hc.
Qed.

Lemma numbering_removed_witness :
  strip_number "12.  Polar bear" = "Polar bear".
Proof.
  apply (numbering_removed "12" "  " "Polar bear"); try reflexivity.
  - discriminate.
  - intros c rest E. injection E as <- _. reflexivity.
Defined.

(** ** Setup, continued *)

Lemma decimal_plain (u : Decimal.uint) :
  has_char "$" (NilEmpty.string_of_uint u) = false
  /\ has_char "{" (NilEmpty.string_of_uint u) = false.
Proof. induction u; simpl; tauto. Qed.

Lemma jsnum_plain (q : jsnum) :
  has_char "$" (jsnum_toString q) = false
  /\ has_char "{" (jsnum_toString q) = false.
Proof. destruct q; [apply decimal_plain | by split]. Qed.

(** X8. For a category text without [$] and without an opening brace,
    the request of the setup phase is the template with the quota in
    decimal and the category text in their places and nothing after the
    last line: it never carries an exclusion list. *)
Theorem setup_request_text (count : jsnum) (category : Category) :
  plain (cat_prompt category) = true ->
  content (App.setupRequest count category)
  = promptText (jsnum_toString count) (cat_prompt category) "".
Proof.
  intros Hp. unfold App.setupRequest. cbn [content].
  destruct (jsnum_plain count) as [H1 H2].
  by apply template_filled.
Qed.

Lemma setup_request_text_witness :
  content (App.setupRequest (Num 17) disney)
  = promptText "17" "Disney Characters" "".
Proof. apply (setup_request_text (Num 17) disney). reflexivity. Defined.


Section Labels.
Variable catalog : list Category.
Variable pools : string -> list string.



End Labels.


Lemma shuffleArray_ext {T : Type} (random random' : nat -> Q) (k : nat)
    (l : list T) :
  (forall n, random n = random' n) ->
  shuffleArray random k l = shuffleArray random' k l.
Proof.
  intros H. unfold shuffleArray. generalize (length l - 1). intros i.
  revert k l. induction i as [|i IH]; intros k l; simpl; [done|].
  unfold random_index. rewrite H. apply IH.
Qed.

Section Network.
Variable catalog : list Category.
Variable pools : string -> list string.

Lemma collect_offline env respond quota categories : forall acc,
  (forall v, App.isOnline env v = false) ->
  exists acc',
    App.collect pools env quota acc categories = Some acc'
    /\ App.collect pools {| App.isOnline := App.isOnline env;
                  App.respond := respond;
                  App.random := App.random env |}
         quota acc categories = Some acc'
    /\ (forallb App.isCustom categories = true ->
        App.allPrompts acc'
        = App.allPrompts acc ++ replicate (length categories) offlineNotice).
Proof.
  induction categories as [|c cats IH]; intros acc Hoff.
  - exists acc. split_and!; try done. intros _. simpl. by rewrite app_nil_r.
  - simpl. unfold App.visit, App.categoryPrompts. simpl.
    destruct (App.isCustom c) eqn:Hc; simpl; rewrite ?Hoff; simpl.
    + match goal with
      | |- context [App.collect pools env quota ?a cats] =>
          destruct (IH a Hoff) as (acc' & E1 & E2 & E3)
      end.
      exists acc'. split_and!; try done.
      intros Hall. rewrite (E3 Hall). simpl.
      by rewrite <- app_assoc.
    + match goal with
      | |- context [App.collect pools env quota ?a cats] =>
          destruct (IH a Hoff) as (acc' & E1 & E2 & E3)
      end.
      exists acc'. split_and!; try done.
Qed.

(** X10. Offline, setup never fails and never consults the generator:
    the round starts with the same prompts whatever the generator
    would have answered. When only custom categories are sampled, the
    queue holds the notice "Custom categories require internet
    connection" once per category and nothing else. *)
Theorem offline_setup (env : App.Env) (respond : nat -> Outcome)
    (duration : Q) (categories : list Category) (a : App.State) :
  (forall v, App.isOnline env v = false) ->
  let other :=
    {| App.isOnline := App.isOnline env;
       App.respond := respond;
       App.random := App.random env |} in
  let sampled := App.sampledCategories catalog categories in
  App.gameState
    (App.startGame catalog pools env duration categories a)
    = App.playing
  /\ App.startGame catalog pools other duration categories a
     = App.startGame catalog pools env duration categories a
  /\ (forallb App.isCustom sampled = true ->
      App.prompts
        (App.startGame catalog pools env duration categories a)
      = replicate (length sampled) offlineNotice).
Proof.
  intros Hoff other sampled.
  destruct (collect_offline env respond
              (App.promptsPerCategory (length categories)) sampled
              (App.mkAcc [] ∅ 0 0) Hoff) as (acc & E1 & E2 & E3).
  unfold App.startGame, App.startGame_try. fold sampled.
  unfold other.
  rewrite E1, E2. simpl. split_and!; try done.
  intros Hall. rewrite (E3 Hall). simpl.
  symmetry. apply replicate_Permutation. symmetry.
  apply shuffleArray_perm.
Qed.

Lemma collect_canned env env' quota categories : forall acc,
  forallb (fun c => negb (App.isCustom c)) categories = true ->
  (forall k, App.random env' k = App.random env k) ->
  exists acc',
    App.collect pools env quota acc categories = Some acc'
    /\ App.collect pools env' quota acc categories = Some acc'.
Proof.
  induction categories as [|c cats IH]; intros acc Hall Hr.
  - by exists acc.
  - simpl in Hall. apply andb_prop in Hall as [Hc Hall].
    apply negb_true_iff in Hc. simpl.
    rewrite !visit_canned by done.
    assert (E : App.getRandomOptionsForCategory pools (App.random env')
                  (App.draws acc) (cat_id c) quota
                = App.getRandomOptionsForCategory pools (App.random env)
                    (App.draws acc) (cat_id c) quota).
    { unfold App.getRandomOptionsForCategory. f_equal.
      apply shuffleArray_ext. intros k. apply Hr. }
    rewrite E. by apply IH.
Qed.

(** X11. A selection without custom category needs no network: setup
    succeeds and yields the same round whether the page is online or
    not and whatever the generator would answer, as long as the random
    draws are the same. *)
Theorem canned_setup (env env' : App.Env) (duration : Q)
    (categories : list Category) (a : App.State) :
  forallb (fun c => negb (App.isCustom c))
    (App.sampledCategories catalog categories) = true ->
  (forall k, App.random env' k = App.random env k) ->
  App.gameState
    (App.startGame catalog pools env duration categories a)
    = App.playing
  /\ App.startGame catalog pools env' duration categories a
     = App.startGame catalog pools env duration categories a.
Proof.
  intros Hall Hr.
  destruct (collect_canned env env'
              (App.promptsPerCategory (length categories))
              (App.sampledCategories catalog categories)
              (App.mkAcc [] ∅ 0 0) Hall Hr) as (acc & E1 & E2).
  unfold App.startGame, App.startGame_try. rewrite E1, E2. simpl.
  split; [done|].
  by rewrite (shuffleArray_ext (App.random env') (App.random env)
                (App.draws acc) (App.allPrompts acc) Hr).
Qed.

(** X12. When no category is left to sample (an empty list, or "misc"
    alone with a catalog without canned rows), [startGame] still
    switches to the playing phase, with no prompt and no first
    category; [GameScreen] cannot render [category.prompt]: nothing is
    mounted, no request is sent, and no later event changes the page. *)
Theorem empty_selection_breaks (env : App.Env) (duration : Q)
    (categories : list Category) (w : World) :
  App.sampledCategories catalog categories = [] ->
  crashed w = false -> App.gameState (app w) = App.setup ->
  App.isLoading (app w) = false ->
  let w' := step catalog pools
              (StartGame env duration categories) w in
  App.gameState (app w') = App.playing
  /\ App.prompts (app w') = []
  /\ crashed w' = true
  /\ screen w' = None
  /\ pending w' = pending w
  /\ forall e, step catalog pools e w' = w'.
Proof.
  intros Hs Hc Hp Hl w'.
  assert (E : w' = {| app := App.startGame catalog pools env
                               duration categories (app w);
                      screen := None; instance := instance w;
                      pending := pending w; emitted := emitted w;
                      crashed := true |}
              /\ App.startGame catalog pools env duration
                   categories (app w)
                 = {| App.gameState := App.playing;
                      App.gameConfig := Some (App.mkConfig duration []);
                      App.prompts := [];
                      App.results := App.results (app w);
                      App.isLoading := false;
                      App.promptCategories := ∅ |}).
  { unfold w', step. rewrite Hc, Hp, Hl.
    unfold App.startGame, App.startGame_try. rewrite Hs. simpl.
    unfold mount. simpl. done. }
  destruct E as [E1 E2]. rewrite E1, E2. simpl.
  split_and!; try done.
Qed.
End Network.

Lemma offline_setup_witness :
  let offline := {| App.isOnline := fun _ => false;
                    App.respond := fun _ => Throws;
                    App.random := fun _ => 1 # 2 |} in
  App.gameState
    (App.startGame exampleCategories exampleOptions offline 1
       [mkCategory "custom" "Custom" "custom"; disney] App.init)
  = App.playing
  /\ App.prompts
       (App.startGame exampleCategories exampleOptions offline 1
          [mkCategory "custom" "Custom" "custom"; disney] App.init)
     = [offlineNotice; offlineNotice].
Proof.
  intros offline.
  destruct (offline_setup exampleCategories exampleOptions offline
              (fun _ => Throws) 1
              [mkCategory "custom" "Custom" "custom"; disney] App.init)
    as (H1 & _ & H3); [done|].
  split; [exact H1 | exact (H3 eq_refl)].
Defined.

Lemma canned_setup_witness :
  App.gameState
    (App.startGame exampleCategories exampleOptions (answering Throws) 1
       [animals; movies] App.init) = App.playing.
Proof.
  exact (proj1 (canned_setup exampleCategories exampleOptions
                  (answering Throws) (answering Throws) 1
                  [animals; movies] App.init eq_refl (fun _ => eq_refl))).
Defined.

Lemma empty_selection_breaks_witness :
  crashed (exampleStep (StartGame (answering Throws) 1 []) initialWorld)
  = true.
Proof.
  destruct (empty_selection_breaks exampleCategories exampleOptions
              (answering Throws) 1 [] initialWorld
              eq_refl eq_refl eq_refl eq_refl) as (_ & _ & H & _).
  exact H.
Defined.

(** ** Rounds and phases *)


Section Phases.
Variable catalog : list Category.
Variable pools : string -> list string.

End Phases.

(** ** What a round never undoes *)

Lemma advances_refl s : advances s s.
Proof.
  unfold advances. split_and!; try done; try lia. apply Qle_refl.
Qed.

Lemma advances_trans s1 s2 s3 :
  advances s1 s2 -> advances s2 s3 -> advances s1 s3.
Proof.
  intros (A1 & A2 & A3 & A4 & A5 & A6 & A7 & A8)
         (B1 & B2 & B3 & B4 & B5 & B6 & B7 & B8).
  pose proof (prefix_length _ _ A3). pose proof (prefix_length _ _ B3).
  unfold advances. split_and!.
  - by etrans.
  - by etrans.
  - by etrans.
  - lia.
  - lia.
  - by eapply Qle_trans.
  - congruence.
  - lia.
Qed.

Lemma advances_fetchEffect category s :
  advances s (GameScreen.fetchEffect category s).1.
Proof.
  unfold GameScreen.fetchEffect.
  destruct (GameScreen.needsMore s); simpl; [|apply advances_refl].
  unfold advances. simpl. split_and!; try done; try lia. apply Qle_refl.
Qed.

Lemma advances_countdownTick s : advances s (GameScreen.countdownTick s).
Proof.
  unfold GameScreen.countdownTick.
  destruct (GameScreen.count s) as [|[|c]] eqn:E; [apply advances_refl| |];
    unfold advances; simpl; rewrite ?E;
    split_and!; try done; try lia; apply Qle_refl.
Qed.

Lemma advances_handleResult correct s :
  advances s (GameScreen.handleResult correct s).
Proof.
  unfold GameScreen.handleResult.
  destruct (GameScreen.outOfPrompts s); unfold advances; simpl;
    rewrite ?length_app; simpl;
    split_and!; try done; try lia;
    try (by apply prefix_app_r); apply Qle_refl.
Qed.

Lemma advances_fetchSettled o random k s :
  advances s (GameScreen.fetchSettled o random k s).
Proof.
  destruct o; unfold advances; simpl;
    split_and!; try done; try lia;
    try (by apply prefix_app_r); apply Qle_refl.
Qed.

Lemma advances_tick s :
  advances s (GameScreen.setTimeLeft (GameScreen.timeLeft s - 1) s).
Proof.
  unfold advances; simpl. split_and!; try done; try lia.
  rewrite <- (Qplus_0_r (GameScreen.timeLeft s)) at 2.
  apply Qplus_le_r. done.
Qed.

Section Growth.
Variable catalog : list Category.
Variable pools : string -> list string.

Lemma rerender_advances w s s0 s' :
  worldInv w -> screen w = Some s -> advances s s0 ->
  screen (rerender s0 w) = Some s' ->
  advances s s' /\ instance (rerender s0 w) = instance w.
Proof.
  intros Hinv Hs Ha Hs'.
  destruct (mounted_facts w s Hinv Hs) as (_ & [category Hcat] & _).
  destruct (rerender_fields w s0 category Hcat) as (E1 & _ & _ & E4 & _).
  split; [|done]. rewrite E1 in Hs'. injection Hs' as <-.
  eapply advances_trans; [exact Ha|apply advances_fetchEffect].
Qed.

Lemma step_advances e w s s' :
  worldInv w -> screen w = Some s -> screen (step catalog pools e w) = Some s' ->
  advances s s' /\ instance (step catalog pools e w) = instance w.
Proof.
  intros Hinv Hs.
  assert (Hsame : screen w = Some s' ->
                  advances s s' /\ instance w = instance w).
  { rewrite Hs. intros [= <-]. split; [apply advances_refl|done]. }
  destruct (mounted_facts w s Hinv Hs) as (Hcr & [category Hcat] & _).
  pose proof (screen_playing w s Hinv Hs) as Hp.
  unfold step. rewrite Hcr.
  destruct e as [env duration categories| | |correct|n o random|].
  - by rewrite Hp.
  - rewrite Hs. destruct (GameScreen.showCountdown s); [|done].
    apply rerender_advances; [done|done|apply advances_countdownTick].
  - rewrite Hs. destruct (GameScreen.showCountdown s); [done|].
    unfold GameScreen.tick.
    destruct (Qle_bool (GameScreen.timeLeft s) 1); [done|].
    apply rerender_advances; [done|done|apply advances_tick].
  - rewrite Hs. destruct (GameScreen.showCountdown s); [done|].
    apply rerender_advances; [done|done|apply advances_handleResult].
  - destruct (pending w !! n) as [f|]; [|done]. cbv zeta.
    rewrite Hs. destruct (owner f =? instance w).
    + intros Hs'.
      destruct (rerender_fields (dropPending n w)
                  (GameScreen.fetchSettled o random 0 s) category Hcat)
        as (E1 & _ & _ & E4 & _).
      split; [|done]. rewrite E1 in Hs'. injection Hs' as <-.
      eapply advances_trans;
        [apply advances_fetchSettled|apply advances_fetchEffect].
    + simpl. rewrite Hs. intros [= <-]. split; [apply advances_refl|done].
  - by rewrite Hp.
Qed.

Lemma step_instance e w :
  worldInv w ->
  instance w <= instance (step catalog pools e w)
  /\ (screen w = None -> is_Some (screen (step catalog pools e w)) ->
      instance w < instance (step catalog pools e w)).
Proof.
  intros Hinv.
  unfold step. destruct (crashed w) eqn:Hcr; [same|].
  destruct e as [env duration categories| | |correct|n o random|].
  - destruct (App.gameState (app w)); try same.
    destruct (App.isLoading (app w)); try same.
    unfold mount.
    destruct (App.gameState (App.startGame _ _ _ _ _ _)); try same.
    destruct (App.gameConfig (App.startGame _ _ _ _ _ _)); try same.
    destruct (head (App.categories _)).
    + destruct (GameScreen.fetchEffect _ _). simpl. split; [lia|intros; lia].
    + same.
  - destruct (screen w) as [s|] eqn:Hs; [|same].
    destruct (GameScreen.showCountdown s); [|same].
    destruct (mounted_facts w s Hinv Hs) as (_ & [category Hcat] & _).
    destruct (rerender_fields w (GameScreen.countdownTick s) category Hcat)
      as (_ & _ & _ & E4 & _).
    rewrite E4. same.
  - destruct (screen w) as [s|] eqn:Hs; [|same].
    destruct (GameScreen.showCountdown s); [same|].
    destruct (mounted_facts w s Hinv Hs) as (_ & [category Hcat] & _).
    unfold GameScreen.tick.
    destruct (Qle_bool (GameScreen.timeLeft s) 1).
    + simpl. same.
    + destruct (rerender_fields w
                  (GameScreen.setTimeLeft (GameScreen.timeLeft s - 1) s)
                  category Hcat) as (_ & _ & _ & E4 & _).
      rewrite E4. same.
  - destruct (screen w) as [s|] eqn:Hs; [|same].
    destruct (GameScreen.showCountdown s); [same|].
    destruct (mounted_facts w s Hinv Hs) as (_ & [category Hcat] & _).
    destruct (rerender_fields w (GameScreen.handleResult correct s)
                category Hcat) as (_ & _ & _ & E4 & _).
    rewrite E4. same.
  - destruct (pending w !! n) as [f|]; [|same]. cbv zeta.
    destruct (screen w) as [s|] eqn:Hs.
    + destruct (owner f =? instance w); [|same].
      destruct (mounted_facts w s Hinv Hs) as (_ & [category Hcat] & _).
      destruct (rerender_fields (dropPending n w)
                  (GameScreen.fetchSettled o random 0 s) category Hcat)
        as (_ & _ & _ & E4 & _).
      rewrite E4. same.
    + same.
  - destruct (App.gameState (app w)); try same.
Qed.

Lemma run_snoc events e w :
  run catalog pools (events ++ [e]) w
  = step catalog pools e (run catalog pools events w).
Proof. by rewrite run_app. Qed.

Lemma run_instance events w :
  worldInv w -> instance w <= instance (run catalog pools events w).
Proof.
  intros Hinv. induction events as [|e events IH] using rev_ind; [done|].
  rewrite run_snoc.
  assert (Hinv' : worldInv (run catalog pools events w)).
  { clear IH. revert w Hinv.
    induction events as [|e' events IH']; intros w Hinv; [done|].
    apply IH'. by apply step_inv. }
  destruct (step_instance e _ Hinv') as [H _]. lia.
Qed.

(** X14. As long as the same [GameScreen] instance is mounted, whatever
    events arrive, its queue, its used list and its results only grow
    at their end, the cursor only moves forward and by at most one per
    recorded result, the clock and the countdown never go up, and the
    category labels of the prompts are those it was mounted with. *)
Theorem round_only_grows (events : list Event) (w : World)
    (s s' : GameScreen.State) :
  reachable catalog pools w -> screen w = Some s ->
  screen (run catalog pools events w) = Some s' ->
  instance (run catalog pools events w) = instance w ->
  advances s s'.
Proof.
  intros Hr Hs. revert s'.
  induction events as [|e events IH] using rev_ind; intros s' Hs' Hi.
  { simpl in Hs'. rewrite Hs in Hs'. injection Hs' as <-.
    apply advances_refl. }
  rewrite run_snoc in Hs', Hi.
  pose proof (reachable_inv _ _ w Hr) as Hinv.
  assert (Hr1 : reachable catalog pools (run catalog pools events w))
    by (by apply reachable_run).
  pose proof (reachable_inv _ _ _ Hr1) as Hinv1.
  pose proof (run_instance events w Hinv) as Hle.
  destruct (step_instance e _ Hinv1) as [Hle1 Hnew].
  destruct (screen (run catalog pools events w)) as [s1|] eqn:Hs1.
  - destruct (step_advances e _ s1 s' Hinv1 Hs1 Hs') as [Ha Hi1].
    eapply advances_trans; [|exact Ha]. apply IH; [done|]. lia.
  - assert (Hlt : instance (run catalog pools events w)
                  < instance (step catalog pools e (run catalog pools events w)))
      by (apply Hnew; [done|by eexists]).
    lia.
Qed.
End Growth.

(** ** Replenishment during a round *)

Lemma needsMore_idle s :
  isLoadingMore (GameScreen.gameState s) = false ->
  GameScreen.needsMore s
  = bool_decide (length (availablePrompts (GameScreen.gameState s))
                 <= GameScreen.currentPromptIndex s + 10).
Proof.
  intros H. unfold GameScreen.needsMore. rewrite H, andb_true_r.
  destruct (Z.leb_spec
              (Z.of_nat (length (availablePrompts (GameScreen.gameState s)))
               - Z.of_nat (GameScreen.currentPromptIndex s)) 10);
    symmetry; [apply bool_decide_eq_true|apply bool_decide_eq_false]; lia.
Qed.


Section Replenishment.
Variable catalog : list Category.
Variable pools : string -> list string.



End Replenishment.

(** ** The steps of the page, case by case *)

Section Cases.
Variable catalog : list Category.
Variable pools : string -> list string.

Lemma step_cases e w :
  worldInv w ->
  step catalog pools e w = w
  \/ (exists env duration categories,
        e = StartGame env duration categories
        /\ App.gameState (app w) = App.setup /\ screen w = None
        /\ step catalog pools e w
           = mount (App.startGame catalog pools env duration
                      categories (app w)) w)
  \/ (exists s s0 category,
        screen w = Some s /\ activeCategory (app w) = Some category
        /\ step catalog pools e w = rerender s0 w
        /\ ((e = CountdownTick /\ GameScreen.showCountdown s = true
             /\ s0 = GameScreen.countdownTick s)
            \/ (e = Tick /\ GameScreen.showCountdown s = false
                /\ Qle_bool (GameScreen.timeLeft s) 1 = false
                /\ s0 = GameScreen.setTimeLeft (GameScreen.timeLeft s - 1) s)
            \/ (exists correct,
                  e = Judge correct /\ GameScreen.showCountdown s = false
                  /\ s0 = GameScreen.handleResult correct s)))
  \/ (exists s category n f o random,
        screen w = Some s /\ activeCategory (app w) = Some category
        /\ e = Settle n o random /\ pending w !! n = Some f
        /\ owner f = instance w
        /\ step catalog pools e w
           = rerender (GameScreen.fetchSettled o random 0 s)
               (dropPending n w))
  \/ (exists n f o random,
        e = Settle n o random /\ pending w !! n = Some f
        /\ (screen w = None \/ owner f <> instance w)
        /\ step catalog pools e w = dropPending n w)
  \/ (exists s,
        e = Tick /\ screen w = Some s
        /\ GameScreen.showCountdown s = false
        /\ Qle_bool (GameScreen.timeLeft s) 1 = true
        /\ step catalog pools e w = gameEnds (GameScreen.results s) w)
  \/ (e = PlayAgain /\ App.gameState (app w) = App.finished
      /\ screen w = None
      /\ step catalog pools e w
         = {| app := App.resetGame (app w);
              screen := None;
              instance := instance w;
              pending := pending w;
              emitted := emitted w;
              crashed := crashed w |}).
Proof.
  intros Hinv. unfold step.
  destruct (crashed w) eqn:Hcr; [by left|].
  assert (Hphase : forall s, screen w = Some s ->
                     App.gameState (app w) = App.playing)
    by (intros s Hs; by eapply screen_playing).
  assert (Hcat : forall s, screen w = Some s ->
                   exists category, activeCategory (app w) = Some category).
  { intros s Hs. by destruct (mounted_facts w s Hinv Hs) as (_ & ? & _). }
  destruct e as [env duration categories| | |correct|n o random|].
  - destruct (App.gameState (app w)) eqn:Hp; try by left.
    destruct (App.isLoading (app w)); try by left.
    right; left. exists env, duration, categories. split_and!; try done.
    destruct (screen w) as [s|] eqn:Hs; [|done].
    specialize (Hphase s eq_refl). congruence.
  - destruct (screen w) as [s|] eqn:Hs; [|by left].
    destruct (GameScreen.showCountdown s) eqn:Hc; [|by left].
    destruct (Hcat s eq_refl) as [category Hcategory].
    right; right; left. exists s, (GameScreen.countdownTick s), category.
    split_and!; try done. by left.
  - destruct (screen w) as [s|] eqn:Hs; [|by left].
    destruct (GameScreen.showCountdown s) eqn:Hc; [by left|].
    destruct (Hcat s eq_refl) as [category Hcategory].
    unfold GameScreen.tick.
    destruct (Qle_bool (GameScreen.timeLeft s) 1) eqn:Hq.
    + do 5 right; left. by exists s.
    + right; right; left.
      exists s, (GameScreen.setTimeLeft (GameScreen.timeLeft s - 1) s),
        category.
      split_and!; try done. right; left. done.
  - destruct (screen w) as [s|] eqn:Hs; [|by left].
    destruct (GameScreen.showCountdown s) eqn:Hc; [by left|].
    destruct (Hcat s eq_refl) as [category Hcategory].
    right; right; left.
    exists s, (GameScreen.handleResult correct s), category.
    split_and!; try done. right; right. by exists correct.
  - destruct (pending w !! n) as [f|] eqn:Hn; [|by left]. cbv zeta.
    destruct (screen w) as [s|] eqn:Hs.
    + destruct (Hcat s eq_refl) as [category Hcategory].
      destruct (Nat.eqb_spec (owner f) (instance w)) as [Ho|Ho].
      * do 3 right; left. by exists s, category, n, f, o, random.
      * do 4 right; left. exists n, f, o, random.
        split_and!; try done. by right.
    + do 4 right; left. exists n, f, o, random.
      split_and!; try done. by left.
  - destruct (App.gameState (app w)) eqn:Hp; try by left.
    do 6 right. split_and!; try done.
    + destruct (screen w) as [s|] eqn:Hs; [|done].
      specialize (Hphase s eq_refl). congruence.
    + destruct (screen w) as [s|] eqn:Hs; [|done].
      specialize (Hphase s eq_refl). congruence.
Qed.
End Cases.

(** ** Mounting and the countdown *)

Lemma mount_screen a w s :
  screen w = None -> screen (mount a w) = Some s ->
  exists config category,
    App.gameState a = App.playing
    /\ App.gameConfig a = Some config
    /\ head (App.categories config) = Some category
    /\ s = (GameScreen.fetchEffect category
              (GameScreen.init (propsOf a config category))).1
    /\ app (mount a w) = a
    /\ instance (mount a w) = S (instance w)
    /\ pending (mount a w)
       = pending w
         ++ map (mkFetch (S (instance w)))
              (GameScreen.fetchEffect category
                 (GameScreen.init (propsOf a config category))).2.
Proof.
  intros Hnone. unfold mount.
  destruct (App.gameState a) eqn:Hp; simpl; try congruence.
  destruct (App.gameConfig a) as [config|] eqn:Hc; simpl; try congruence.
  destruct (head (App.categories config)) as [category|] eqn:Hh;
    simpl; [|congruence].
  destruct (GameScreen.fetchEffect category _) as [s1 reqs] eqn:E. simpl.
  intros [= <-]. exists config, category. by rewrite E.
Qed.

Lemma fetchEffect_count category s :
  GameScreen.count (GameScreen.fetchEffect category s).1 = GameScreen.count s
  /\ promptCategories (GameScreen.gameState (GameScreen.fetchEffect category s).1)
     = promptCategories (GameScreen.gameState s).
Proof.
  unfold GameScreen.fetchEffect. by destruct (GameScreen.needsMore s).
Qed.

Section Mounted.
Variable catalog : list Category.
Variable pools : string -> list string.





(** X19. The [GameScreen] that a start from the setup phase mounts
    begins with the clock at 60 times the duration, the cursor at 0, no
    result and no used prompt, three counts to go, and the prompts and
    labels [App] now holds; it is a new instance, so no request of an
    earlier round belongs to it, and its own first request is already
    in flight during the countdown exactly when [App] holds at most 10
    prompts. *)
Theorem new_round_is_fresh (w : World) (env : App.Env) (duration : Q)
    (categories : list Category) (s : GameScreen.State) :
  reachable catalog pools w -> App.gameState (app w) = App.setup ->
  let w' := step catalog pools (StartGame env duration categories) w in
  screen w' = Some s ->
  GameScreen.timeLeft s = (duration * 60)%Q
  /\ GameScreen.currentPromptIndex s = 0
  /\ GameScreen.results s = []
  /\ usedPrompts (GameScreen.gameState s) = []
  /\ GameScreen.showCountdown s = true
  /\ GameScreen.count s = 3
  /\ availablePrompts (GameScreen.gameState s) = App.prompts (app w')
  /\ promptCategories (GameScreen.gameState s)
     = App.promptCategories (app w')
  /\ instance w' = S (instance w)
  /\ (forall f, f ∈ pending w -> owner f <> instance w')
  /\ isLoadingMore (GameScreen.gameState s)
     = bool_decide (length (App.prompts (app w')) <= 10)
  /\ owned (instance w') (pending w')
     = if bool_decide (length (App.prompts (app w')) <= 10) then 1 else 0.
Proof.
  intros Hr Hp w' Hs'.
  pose proof (reachable_inv _ _ w Hr) as Hinv.
  assert (Hnone : screen w = None).
  { destruct (screen w) as [s0|] eqn:Hs; [|done].
    pose proof (screen_playing w s0 Hinv Hs). congruence. }
  destruct (step_cases catalog pools
              (StartGame env duration categories) w Hinv)
    as [E | [(env' & duration' & categories' & [= <- <- <-] & _ & _ & E)
       | [(s0 & ? & ? & Hs & _)
       | [(s0 & ? & ? & ? & ? & ? & Hs & _)
       | [(? & ? & ? & ? & [=] & _)
       | [(? & [=] & _)
       | ([=] & _)]]]]]]; try congruence.
  { fold w' in E. rewrite E in Hs'. congruence. }
  fold w' in E. rewrite E in Hs' |- *.
  destruct (mount_screen _ _ _ Hnone Hs')
    as (config & category & Hplay & Hcfg & Hhead & -> & Ea & Ei & Ep).
  set (a := App.startGame catalog pools env duration categories
              (app w)) in *.
  set (s0 := GameScreen.init (propsOf a config category)) in *.
  assert (Hd : App.duration config = duration).
  { unfold a, App.startGame in Hcfg.
    destruct (App.startGame_try _ _ _ _ _) as [[[p l] c]|] eqn:Et;
      simpl in Hcfg.
    - injection Hcfg as <-. unfold App.startGame_try in Et.
      destruct (App.collect _ _ _ _ _); [|done].
      by injection Et as _ _ <-.
    - unfold a, App.startGame in Hplay. rewrite Et in Hplay.
      simpl in Hplay. congruence. }
  destruct (fetchEffect_keeps category s0) as (K1 & K2 & K3 & K4 & K5 & K6).
  destruct (fetchEffect_count category s0) as (K7 & K8).
  rewrite Ea, Ei.
  assert (Hidle : isLoadingMore (GameScreen.gameState s0) = false) by done.
  pose proof (needsMore_idle s0 Hidle) as Hneed.
  change (length (availablePrompts (GameScreen.gameState s0)))
    with (length (App.prompts a)) in Hneed.
  change (GameScreen.currentPromptIndex s0 + 10) with 10 in Hneed.
  assert (Hold : forall f, f ∈ pending w -> owner f <> S (instance w)).
  { intros f Hf. destruct Hinv as [Hown _ _]. specialize (Hown f Hf). lia. }
  assert (Hnone_owned : owned (S (instance w)) (pending w) = 0).
  { apply owned_below. intros f Hf. destruct Hinv as [Hown _ _].
    specialize (Hown f Hf). lia. }
  rewrite K1, K2, K3, K4, K5, K6, K7, K8, Ep, owned_app, Hnone_owned.
  split_and!; try done.
  - simpl. by rewrite Hd.
  - unfold GameScreen.fetchEffect. rewrite Hneed.
    by destruct (bool_decide (length (App.prompts a) <= 10)).
  - unfold GameScreen.fetchEffect. rewrite Hneed.
    destruct (bool_decide (length (App.prompts a) <= 10)); [|done].
    simpl. apply owned_own.
Qed.
End Mounted.

(** ** The category of the replenishment requests *)

Lemma fetchEffect_requests category s r :
  r ∈ (GameScreen.fetchEffect category s).2 ->
  r = GameScreen.moreRequest category (usedPrompts (GameScreen.gameState s)).
Proof.
  unfold GameScreen.fetchEffect. destruct (GameScreen.needsMore s); simpl.
  - by intros ->%list_elem_of_singleton.
  - by intros ?%elem_of_nil.
Qed.

Lemma sent_requests i category s f :
  f ∈ map (mkFetch i) (GameScreen.fetchEffect category s).2 ->
  exists used, request f = GameScreen.moreRequest category used.
Proof.
  intros Hf. apply list_elem_of_fmap in Hf as (r & -> & Hr).
  apply fetchEffect_requests in Hr. eexists. exact Hr.
Qed.

Section Requests.
Variable catalog : list Category.
Variable pools : string -> list string.

Lemma startGame_config env duration categories a config :
  App.gameConfig
    (App.startGame catalog pools env duration categories a)
  = Some config ->
  (config = App.mkConfig duration
              (App.sampledCategories catalog categories)
   /\ App.gameState
        (App.startGame catalog pools env duration categories a)
      = App.playing)
  \/ (App.gameConfig a = Some config
      /\ App.gameState
           (App.startGame catalog pools env duration categories a)
         = App.gameState a).
Proof.
  unfold App.startGame, App.startGame_try.
  destruct (App.collect _ _ _ _ _); simpl.
  - intros [= <-]. by left.
  - intros H. by right.
Qed.

Lemma requests_inv w :
  reachable catalog pools w ->
  (forall config, App.gameConfig (app w) = Some config ->
     exists duration categories,
       config = App.mkConfig duration
                  (App.sampledCategories catalog categories))
  /\ (forall f category,
        f ∈ pending w -> owner f = instance w ->
        activeCategory (app w) = Some category ->
        exists used, request f = GameScreen.moreRequest category used).
Proof.
  induction 1 as [|e w Hr [IH1 IH2]].
  { split; [done|]. by intros f category ?%elem_of_nil. }
  pose proof (reachable_inv _ _ w Hr) as Hinv.
  pose proof Hinv as [Hown _ _].
  destruct (step_cases catalog pools e w Hinv)
    as [E | [(env & duration & categories & _ & Hp & Hnone & E)
       | [(s & s0 & category & Hs & Hcat & E & _)
       | [(s & category & n & f0 & o & random & Hs & Hcat & _ & _ & _ & E)
       | [(n & f0 & o & random & _ & _ & _ & E)
       | [(s & _ & _ & _ & _ & E)
       | (_ & _ & _ & E)]]]]]];
    rewrite E; clear E.
  - done.
  - set (a := App.startGame catalog pools env duration categories
                (app w)).
    assert (Ha : app (mount a w) = a).
    { unfold mount. destruct (App.gameState a); try done.
      destruct (App.gameConfig a); try done.
      destruct (head (App.categories _)); try done.
      by destruct (GameScreen.fetchEffect _ _). }
    rewrite Ha. split.
    + intros config Hc.
      destruct (startGame_config _ _ _ _ _ Hc) as [[-> _] | [Hc' _]];
        [by eexists _, _ | by apply IH1].
    + intros f category Hf Ho Hcat. unfold mount in Hf, Ho.
      unfold activeCategory in Hcat.
      destruct (App.gameConfig a) as [config|] eqn:Hc; [|done].
      destruct (App.gameState a) eqn:Hpa.
      * destruct (startGame_config _ _ _ _ _ Hc) as [[_ Hp'] | [Hc' Hp']].
        { fold a in Hp'. congruence. }
        simpl in Hf, Ho. apply (IH2 f category Hf Ho).
        unfold activeCategory. by rewrite Hc'.
      * rewrite Hcat in Hf, Ho.
        destruct (GameScreen.fetchEffect category _) as [s1 reqs] eqn:Ef.
        simpl in Hf, Ho. apply elem_of_app in Hf as [Hf | Hf].
        { specialize (Hown f Hf). lia. }
        eapply (sent_requests _ category). rewrite Ef. exact Hf.
      * destruct (startGame_config _ _ _ _ _ Hc) as [[_ Hp'] | [Hc' Hp']];
          fold a in Hp'; congruence.
  - destruct (rerender_fields w s0 category Hcat)
      as (_ & E2 & E3 & E4 & _).
    rewrite E2, E3, E4. split; [done|].
    intros f category' Hf Ho Hcat'.
    apply elem_of_app in Hf as [Hf | Hf]; [by apply IH2|].
    assert (category' = category) as -> by congruence.
    by eapply sent_requests.
  - destruct (rerender_fields (dropPending n w)
                (GameScreen.fetchSettled o random 0 s) category Hcat)
      as (_ & E2 & E3 & E4 & _).
    rewrite E2, E3, E4. simpl. split; [done|].
    intros f category' Hf Ho Hcat'.
    apply elem_of_app in Hf as [Hf | Hf].
    + apply list_elem_of_delete_inv in Hf. by apply IH2.
    + assert (category' = category) as -> by congruence.
      by eapply sent_requests.
  - simpl. split; [done|]. intros f category Hf Ho Hcat.
    apply list_elem_of_delete_inv in Hf. by apply IH2.
  - simpl. split; [done|]. intros f category Hf Ho Hcat. by apply IH2.
  - simpl. split; [done|]. intros f category Hf Ho Hcat. done.
Qed.

(** X20. The replenishment requests of a round all ask for one
    category: the first of the list the setup loop ran over. When the
    round was started with several categories the others are never
    replenished, and in an All Categories round the requests are for
    the first entry of the catalog that is neither custom nor misc. *)
Theorem replenishment_asks_first_category (w : World)
    (s : GameScreen.State) :
  reachable catalog pools w -> screen w = Some s ->
  exists duration categories category,
    App.gameConfig (app w)
    = Some (App.mkConfig duration
              (App.sampledCategories catalog categories))
    /\ head (App.sampledCategories catalog categories)
       = Some category
    /\ (forall c, categories = [c] -> cat_id c = "misc" ->
        head (List.filter
                (fun c => negb (String.eqb (cat_id c) "custom")
                          && negb (String.eqb (cat_id c) "misc"))
                catalog) = Some category)
    /\ forall f, f ∈ pending w -> owner f = instance w ->
         exists used, request f = GameScreen.moreRequest category used.
Proof.
  intros Hr Hs.
  pose proof (reachable_inv _ _ w Hr) as Hinv.
  destruct (requests_inv w Hr) as [H1 H2].
  destruct (mounted_facts w s Hinv Hs) as (_ & [category Hcat] & _).
  pose proof Hcat as Hcat'. unfold activeCategory in Hcat'.
  destruct (App.gameConfig (app w)) as [config|] eqn:Hc; [|done].
  destruct (H1 config eq_refl) as (duration & categories & ->).
  exists duration, categories, category. split_and!; try done.
  - intros c -> Hmisc. simpl in Hcat'.
    by rewrite Hmisc in Hcat'.
  - intros f Hf Ho. by apply (H2 f category).
Qed.
End Requests.

(** ** The clock and the score of a round *)







Section Score.
Variable catalog : list Category.
Variable pools : string -> list string.





End Score.

(** ** The shuffle and the elements *)

(** X23. [shuffleArray] never looks at the elements: shuffling commutes
    with any relabelling of them, so the result is the input read at the
    positions that the same draws give for the list 0, 1, ...,
    length - 1. *)
Theorem shuffle_ignores_elements {A B : Type} (f : A -> B)
    (random : nat -> Q) (k : nat) (l : list A) (d : A) :
  shuffleArray random k (f <$> l) = f <$> shuffleArray random k l
  /\ shuffleArray random k l
     = (fun i => nth i l d) <$> shuffleArray random k (seq 0 (length l)).
Proof.
  split; [apply shuffleArray_fmap|].
  rewrite <- shuffleArray_fmap. f_equal.
  apply list_eq. intros i. rewrite list_lookup_fmap.
  destruct (decide (i < length l)) as [Hi|Hi].
  - rewrite lookup_seq_lt by done. simpl.
    destruct (l !! i) as [x|] eqn:E.
    + f_equal. symmetry. by apply nth_lookup_Some with (d := d) in E.
    + apply lookup_ge_None in E. lia.
  - rewrite lookup_seq_ge by lia. simpl. apply lookup_ge_None. lia.
Qed.

(** ** getRandomPastelTheme *)

Lemma theme_index random k :
  unit_random random ->
  getRandomPastelTheme random k = themes !! random_index random k 3.
Proof.
  intros H. destruct (H k) as [H0 _]. unfold getRandomPastelTheme.
  cbv zeta.
  assert (Hf : (0 <= Qfloor (random k
                              * inject_Z (Z.of_nat (length themes))))%Z).
  { change 0%Z with (Qfloor 0). apply Qfloor_resp_le.
    apply Qmult_le_0_compat; [done|]. done. }
  destruct (Z.ltb_spec
              (Qfloor (random k * inject_Z (Z.of_nat (length themes)))) 0);
    [lia|done].
Qed.

(** X24. With [Math.random] in [[0,1)], [getRandomPastelTheme] always
    returns one of the four themes, and it returns the theme at position
    [j] exactly when the draw falls in the quarter
    [[j/4, (j+1)/4)]. *)
Theorem theme_by_quarter (random : nat -> Q) (k j : nat) :
  unit_random random -> j < 4 ->
  is_Some (getRandomPastelTheme random k)
  /\ (getRandomPastelTheme random k = themes !! j
      <-> (slot_lo 4 j <= random k)%Q /\ (random k < slot_hi 4 j)%Q).
Proof.
  intros H Hj. rewrite (theme_index _ _ H).
  pose proof (random_index_bound random k 3 H) as Hb.
  split.
  - apply lookup_lt_is_Some. simpl. lia.
  - rewrite <- (random_index_slot random k 3 j H). split.
    + intros E.
      assert (Hnd : NoDup (primary <$> themes)).
      { apply (bool_decide_unpack (NoDup (primary <$> themes))).
        by vm_compute. }
      apply (f_equal (fmap primary)) in E.
      rewrite <- !list_lookup_fmap in E.
      destruct ((primary <$> themes) !! j) as [x|] eqn:Ex.
      * eapply NoDup_lookup; [exact Hnd|exact E|exact Ex].
      * apply lookup_ge_None in Ex. simpl in Ex. lia.
    + by intros ->.
Qed.

(** ** The displayed clock *)

Lemma digits_no_colon (u : Decimal.uint) :
  has_char ":" (NilEmpty.string_of_uint u) = false.
Proof. induction u; simpl; done. Qed.

Lemma split_colon (a a' b b' : string) :
  has_char ":" a = false -> has_char ":" a' = false ->
  a +:+ ":" +:+ b = a' +:+ ":" +:+ b' -> a = a' /\ b = b'.
Proof.
  revert a'. induction a as [|c a IH]; intros [|c' a'] Ha Ha' E.
  - rewrite !append_nil_l in E. by injection E.
  - rewrite append_nil_l, !append_cons in E. injection E as <- _.
    simpl in Ha'. done.
  - rewrite append_nil_l, !append_cons in E. injection E as -> _.
    simpl in Ha. done.
  - rewrite !append_cons in E. injection E as -> E.
    simpl in Ha, Ha'. apply orb_false_elim in Ha as [_ Ha].
    apply orb_false_elim in Ha' as [_ Ha'].
    destruct (IH a' Ha Ha' E) as [-> ->]. done.
Qed.

Lemma nat_to_string_inj (n m : nat) :
  nat_to_string n = nat_to_string m -> n = m.
Proof.
  unfold nat_to_string. intros E.
  apply (f_equal NilEmpty.uint_of_string) in E.
  rewrite !NilEmpty.usu in E. injection E as E.
  apply (f_equal Nat.of_uint) in E.
  by rewrite !DecimalNat.Unsigned.of_to in E.
Qed.

Lemma seconds_text (a b : nat) :
  a < 60 -> b < 60 ->
  String.length (padStart2 (nat_to_string a)) = 2
  /\ (padStart2 (nat_to_string a) = padStart2 (nat_to_string b) -> a = b).
Proof.
  intros Ha Hb.
  assert (H : forallb
                (fun a =>
                   (String.length (padStart2 (nat_to_string a)) =? 2)
                   && forallb
                        (fun b =>
                           implb
                             (String.eqb (padStart2 (nat_to_string a))
                                (padStart2 (nat_to_string b)))
                             (a =? b))
                        (List.seq 0 60))
                (List.seq 0 60) = true) by (by vm_compute).
  rewrite forallb_forall in H.
  specialize (H a ltac:(apply in_seq; lia)).
  apply andb_prop in H as [H1 H2]. split; [by apply Nat.eqb_eq|].
  rewrite forallb_forall in H2.
  specialize (H2 b ltac:(apply in_seq; lia)).
  intros E. apply String.eqb_eq in E. rewrite E in H2.
  by apply Nat.eqb_eq.
Qed.

(** X25. For a clock that holds a whole number of seconds, the
    displayed text shows the seconds with exactly two digits, and two
    different times are never displayed alike. *)
Theorem clock_text_faithful (t t' : nat) :
  String.length (padStart2 (nat_to_string (t mod 60))) = 2
  /\ (clockText t = clockText t' -> t = t').
Proof.
  assert (Ht : t mod 60 < 60) by (apply Nat.mod_upper_bound; lia).
  assert (Ht' : t' mod 60 < 60) by (apply Nat.mod_upper_bound; lia).
  destruct (seconds_text _ _ Ht Ht') as [Hlen Hsec].
  split; [done|]. unfold clockText. cbv zeta. intros E.
  apply split_colon in E as [Em Es]; try apply digits_no_colon.
  apply nat_to_string_inj in Em. apply Hsec in Es.
  rewrite (Nat.div_mod_eq t 60), (Nat.div_mod_eq t' 60). lia.
Qed.

(** ** The further properties at concrete inputs *)



Lemma round_only_grows_witness :
  let w := exampleRun
             [StartGame (answering Throws) 1 [movies]; CountdownTick]
             initialWorld in
  let events := [CountdownTick; CountdownTick; Judge true; Tick;
                 Settle 0 (Responds (Some "Up")) (fun _ => 1 # 2)] in
  exists s s',
    screen w = Some s /\ screen (exampleRun events w) = Some s'
    /\ advances s s'.
Proof.
  intros w events. unfold exampleRun in *.
  destruct (screen w) as [s|] eqn:Hs; [|by vm_compute in Hs].
  destruct (screen (run exampleCategories exampleOptions events w))
    as [s'|] eqn:Hs'; [|by vm_compute in Hs'].
  exists s, s'. split; [done|]. split; [done|].
  apply (round_only_grows exampleCategories exampleOptions events w s s');
    [apply example_reachable|exact Hs|exact Hs'|vm_compute; reflexivity].
Defined.





Lemma new_round_is_fresh_witness :
  let w := exampleRun
             ([StartGame (answering Throws) (1 # 2) [movies];
               CountdownTick; CountdownTick; CountdownTick; Judge true]
              ++ repeat Tick 30 ++ [PlayAgain]) initialWorld in
  let w' := exampleStep (StartGame (answering Throws) 2 [animals]) w in
  length (pending w) = 1
  /\ exists s, screen w' = Some s
       /\ GameScreen.results s = []
       /\ GameScreen.timeLeft s = (2 * 60)%Q
       /\ GameScreen.count s = 3
       /\ instance w' = 2
       /\ (forall f, f ∈ pending w -> owner f <> instance w').
Proof.
  intros w w'. unfold exampleStep in w'.
  assert (Hw : reachable exampleCategories exampleOptions w)
    by apply example_reachable.
  assert (Hp : App.gameState (app w) = App.setup)
    by (vm_compute; reflexivity).
  assert (Hi : instance w = 1) by (vm_compute; reflexivity).
  assert (Hl : length (pending w) = 1) by (vm_compute; reflexivity).
  destruct (screen w') as [s|] eqn:Hs; [|by vm_compute in Hs].
  split; [exact Hl|]. exists s. split; [reflexivity|].
  destruct (new_round_is_fresh exampleCategories exampleOptions w
              (answering Throws) 2 [animals] s Hw Hp Hs)
    as (T & _ & R & _ & _ & C & _ & _ & I & O & _).
  split; [exact R|]. split; [exact T|]. split; [exact C|].
  split; [unfold w'; rewrite I, Hi; reflexivity|exact O].
Defined.

Lemma replenishment_asks_first_category_witness :
  let w := exampleRun [StartGame (answering Throws) 1 [allCategories]]
             initialWorld in
  exists f used,
    pending w = [f]
    /\ request f = GameScreen.moreRequest animals used.
Proof.
  intros w.
  assert (Hw : reachable exampleCategories exampleOptions w)
    by apply example_reachable.
  destruct (screen w) as [s|] eqn:Hs; [|by vm_compute in Hs].
  destruct (pending w) as [|f [|g l]] eqn:Hp;
    [by vm_compute in Hp| |by vm_compute in Hp].
  assert (Ho : owner f = instance w)
    by (vm_compute in Hp; injection Hp as <-; reflexivity).
  assert (Hcfg : App.gameConfig (app w)
                 = Some (App.mkConfig 1 [animals; movies]))
    by (vm_compute; reflexivity).
  clearbody w.
  destruct (replenishment_asks_first_category exampleCategories
              exampleOptions w s Hw Hs)
    as (duration & categories & category & Hc & Hh & _ & Hreq).
  rewrite Hcfg in Hc. injection Hc as _ Hc. rewrite <- Hc in Hh.
  injection Hh as <-.
  destruct (Hreq f) as [used Hu]; [rewrite Hp; apply list_elem_of_here|exact Ho|].
  by exists f, used.
Defined.



Lemma theme_by_quarter_witness :
  getRandomPastelTheme (fun _ => 1 # 2) 0 = themes !! 2.
Proof.
  apply (theme_by_quarter (fun _ => 1 # 2) 0 2).
  - intros n. split; unfold Qle, Qlt; simpl; lia.
  - lia.
  - split; unfold Qle, Qlt; simpl; lia.
Defined.
